(** * dokploy-mc: the directory snapshot builder and its HTTP handler

    A shallow embedding of [src/lib/directory.ts] and
    [src/app/api/directory/route.ts].

    Conventions.
    - A JavaScript string is a [string]; the program only ever inspects
      the characters '/' and '.', so the width of a code unit plays no role.
    - The host is POSIX (the base directory is '/dp-apps'), so [path] is
      Node's [path.posix].
    - A function that can throw returns an [Outcome]; an [async] function
      returns an [Async]: the file-system calls it issued, and its outcome.
    - The file system is an oracle, fixed for the duration of one request. *)

From Stdlib Require Import String Ascii List Bool Arith ZArith Lia.
From Stdlib Require Import Permutation Sorted.
From Stdlib Require OrderedTypeEx.
Import ListNotations.

Local Open Scope list_scope.
Local Open Scope string_scope.

(** ** JavaScript string methods used by the program *)

Module Js.

(** [s.startsWith(p)] *)
Definition startsWith (s p : string) : bool := String.prefix p s.

(** [s.replace(/^\/+/, '')]: drops every leading '/'. *)
Fixpoint stripLeadingSlashes (s : string) : string :=
  match s with
  | String "/" rest => stripLeadingSlashes rest
  | _ => s
  end.

(** [s.split('/')]; the result is never empty: [''.split('/')] is ['']. *)
Fixpoint split (s : string) : list string :=
  match s with
  | EmptyString => [EmptyString]
  | String c rest =>
      if Ascii.eqb c "/" then EmptyString :: split rest
      else match split rest with
           | [] => [String c EmptyString]
           | seg :: segs => String c seg :: segs
           end
  end.

(** [l.join('/')] *)
Fixpoint join (l : list string) : string :=
  match l with
  | [] => EmptyString
  | [x] => x
  | x :: rest => x ++ "/" ++ join rest
  end.

(** Truthiness of a string, as used by [filter(Boolean)] and [||]. *)
Definition truthy (s : string) : bool := negb (String.eqb s EmptyString).

(** [s.includes(t)] *)
Fixpoint includes (s t : string) : bool :=
  String.prefix t s ||
  match s with
  | EmptyString => false
  | String _ rest => includes rest t
  end.

End Js.

(** ** Node's [path.posix], as far as the program calls it

    Paths are normalised segment by segment, which is what Node's
    [normalizeString] computes: empty segments and '.' vanish, '..' removes
    the segment before it, and at the root it is dropped (absolute paths) or
    kept (relative paths, [allowAboveRoot]). *)

Module Path.

Definition isAbsolute (p : string) : bool :=
  match p with
  | String "/" _ => true
  | _ => false
  end.

Fixpoint endsWithSlash (p : string) : bool :=
  match p with
  | EmptyString => false
  | String c EmptyString => Ascii.eqb c "/"
  | String _ rest => endsWithSlash rest
  end.

(** One step of [normalizeString]; [stack] holds the segments kept so far,
    innermost first. *)
Definition normalizeStep (allowAboveRoot : bool) (stack : list string)
    (seg : string) : list string :=
  if String.eqb seg EmptyString || String.eqb seg "." then stack
  else if String.eqb seg ".." then
    match stack with
    | top :: below =>
        if String.eqb top ".."
        then (if allowAboveRoot then ".." :: stack else stack)
        else below
    | [] => if allowAboveRoot then [".."] else []
    end
  else seg :: stack.

Definition normalizeSegments (allowAboveRoot : bool) (segs : list string)
    : list string :=
  rev (fold_left (normalizeStep allowAboveRoot) segs []).

(** The segments of an absolute path once resolved. *)
Definition resolvedSegments (p : string) : list string :=
  normalizeSegments false (Js.split p).

(** [path.resolve(from, to)] for an absolute [from], which is how the
    program calls it: the working directory is never consulted. An empty
    [to] is skipped, an absolute [to] wins. *)
Definition resolve (from to : string) : string :=
  let full :=
    if String.eqb to EmptyString then from
    else if isAbsolute to then to
    else from ++ "/" ++ to in
  "/" ++ Js.join (resolvedSegments full).

(** [path.normalize(p)] *)
Definition normalize (p : string) : string :=
  if String.eqb p EmptyString then "."
  else
    let absolute := isAbsolute p in
    let trailing := endsWithSlash p in
    let body := Js.join (normalizeSegments (negb absolute) (Js.split p)) in
    if String.eqb body EmptyString then
      (if absolute then "/" else if trailing then "./" else ".")
    else
      (if absolute then "/" else EmptyString) ++ body
        ++ (if trailing then "/" else EmptyString).

(** [path.join(a, b)]: the non-empty arguments joined by '/', normalised. *)
Definition join (a b : string) : string :=
  if String.eqb a EmptyString then normalize b
  else if String.eqb b EmptyString then normalize a
  else normalize (a ++ "/" ++ b).

Fixpoint dropCommon (xs ys : list string) : list string * list string :=
  match xs, ys with
  | x :: xs', y :: ys' =>
      if String.eqb x y then dropCommon xs' ys' else (xs, ys)
  | _, _ => (xs, ys)
  end.

(** [path.relative(from, to)] for absolute arguments: one '..' for each
    segment of [from] below the common ancestor, then the rest of [to]. *)
Definition relative (from to : string) : string :=
  if String.eqb from to then EmptyString
  else
    let '(up, down) := dropCommon (resolvedSegments from) (resolvedSegments to) in
    Js.join ((map (fun _ => "..") up ++ down)%list).

(** [path.basename(p)]: the last non-empty segment, or '' when there is
    none. *)
Definition basename (p : string) : string :=
  last (filter Js.truthy (Js.split p)) EmptyString.

End Path.

(** ** Errors *)

(** A system error as Node's [fs] rejects with it: [err.code], the text
    of the errno, [err.syscall] and [err.path]. *)
Record SystemError := {
  sysCode : string;
  sysText : string;
  sysCall : string;
  sysPath : string
}.

(** What makes reading the directory or the metadata of a child fail:
    - [fs.readdir] or [fs.stat] rejects with a system error;
    - [fs.readdir] or [fs.stat] rejects its path argument, which holds a
      null byte, with the TypeError [ERR_INVALID_ARG_VALUE]; [reason] is
      what the path must be and [received] the path as [util.inspect] shows
      it;
    - [stats.mtime.toISOString()] throws the RangeError of a date out of
      range. *)
Inductive ReadFailure :=
| SystemFailure (e : SystemError)
| InvalidArgValue (reason received : string)
| InvalidTime.

(** The two kinds of [Error] that [readDirectory] can throw: the one
    [resolvePath] constructs, and a failed read. *)
Inductive JsError :=
| OutOfBoundsError
| ReadError (e : ReadFailure).

(** [error.message]; a system error reads
    [CODE: text, syscall 'path']. *)
Definition message (e : JsError) : string :=
  match e with
  | OutOfBoundsError => "Requested path is outside the allowed directory."
  | ReadError (SystemFailure s) =>
      sysCode s ++ ": " ++ sysText s ++ ", " ++ sysCall s
        ++ " '" ++ sysPath s ++ "'"
  | ReadError (InvalidArgValue reason received) =>
      "The argument 'path' " ++ reason ++ ". Received " ++ received
  | ReadError InvalidTime => "Invalid time value"
  end.

Inductive Outcome (A : Type) :=
| Returns (a : A)
| Throws (e : JsError).
Arguments Returns {A} a.
Arguments Throws {A} e.

(** ** Data model *)

Inductive EntryType := file | directory.

Definition EntryType_eqb (a b : EntryType) : bool :=
  match a, b with
  | file, file | directory, directory => true
  | _, _ => false
  end.

Record DirectoryEntry := {
  name : string;
  relativePath : string;
  type : EntryType;
  size : N;
  modified : string
}.

Record Breadcrumb := {
  label : string;
  path : string
}.

Record DirectorySnapshot := {
  basePath : string;
  requestedPath : string;
  absolutePath : string;
  parentPath : option string;
  breadcrumbs : list Breadcrumb;
  entries : list DirectoryEntry
}.

Definition BASE_DIRECTORY : string := "/dp-apps".

(** ** Path resolver and breadcrumb builder *)

Definition resolvePath (requestedPath : string) : Outcome string :=
  let normalizedRequest := Js.stripLeadingSlashes requestedPath in
  let targetPath := Path.resolve BASE_DIRECTORY normalizedRequest in
  if negb (Js.startsWith targetPath BASE_DIRECTORY) then Throws OutOfBoundsError
  else Returns targetPath.

(** The accumulator of the [reduce] in [buildBreadcrumbs]. The callback
    pushes onto the one array [crumbs] and hands it on, so the array the
    reduction returns is [crumbs] with one crumb appended per segment. *)
Record CrumbAcc := {
  pathAcc : string;
  accBreadcrumbs : list Breadcrumb
}.

Definition crumbStep (acc : CrumbAcc) (segment : string) : CrumbAcc :=
  let nextPath :=
    if Js.truthy (pathAcc acc) then pathAcc acc ++ "/" ++ segment
    else segment in
  {| pathAcc := nextPath;
     accBreadcrumbs :=
       (accBreadcrumbs acc
          ++ [{| label := segment; path := nextPath |}])%list |}.

Definition rootLabel : string :=
  if Js.truthy (Path.basename BASE_DIRECTORY)
  then Path.basename BASE_DIRECTORY else BASE_DIRECTORY.

Definition buildBreadcrumbs (requestedPath : string) : list Breadcrumb :=
  let segments := filter Js.truthy (Js.split requestedPath) in
  let crumbs := [{| label := rootLabel; path := EmptyString |}] in
  accBreadcrumbs
    (fold_left crumbStep segments
       {| pathAcc := EmptyString; accBreadcrumbs := crumbs |}).

(** ** The file system *)

Module Dirent.
(** What [fs.readdir(_, {withFileTypes: true})] lists for one child. *)
Record t := {
  name : string;
  isDirectory : bool
}.
End Dirent.

Module Stats.
(** What the program reads of an [fs.Stats]: [size], and [mtime] as
    [toISOString] renders it. *)
Record t := {
  size : N;
  mtimeISO : string
}.
End Stats.

(** The file system as one request sees it.
    - [readdir p] is how [fs.readdir(p, {withFileTypes: true})] settles.
    - [stat p] is what the callback reads of the child at [p]: [fs.stat(p)]
      rejects, or it fulfils and the callback reads [size] and
      [mtime.toISOString()] off the stats, the latter throwing
      [InvalidTime] for an [mtime] outside the range of dates.
    - [settlesAt p] is the moment the promise of [fs.stat(p)] settles; it
      decides which rejection [Promise.all] reports when several children
      fail. *)
Record FileSystem := {
  readdir : string -> ReadFailure + list Dirent.t;
  stat : string -> ReadFailure + Stats.t;
  settlesAt : string -> nat
}.

Inductive FsCall :=
| CallReaddir (p : string)
| CallStat (p : string).

(** An asynchronous computation: the file-system calls it issued, in
    order, and how it settled. *)
Definition Async (A : Type) : Type := (list FsCall * Outcome A)%type.

Definition ret {A} (a : A) : Async A := ([], Returns a).

Definition bind {A B} (m : Async A) (k : A -> Async B) : Async B :=
  match m with
  | (calls, Throws e) => (calls, Throws e)
  | (calls, Returns a) =>
      let '(calls', r) := k a in ((calls ++ calls')%list, r)
  end.

Notation "x <- m ;; k" := (bind m (fun x => k))
  (at level 61, m at next level, right associativity).

(** A synchronous call that may throw, inside an [async] function. *)
Definition liftOutcome {A} (r : Outcome A) : Async A := ([], r).

Definition fromFs {A} (r : ReadFailure + A) : Outcome A :=
  match r with
  | inl e => Throws (ReadError e)
  | inr a => Returns a
  end.

Definition fsReaddir (fs : FileSystem) (p : string) : Async (list Dirent.t) :=
  ([CallReaddir p], fromFs (readdir fs p)).

(** [await fs.stat(p)] and the reading of [stats.size] and
    [stats.mtime.toISOString()] that follows it in the callback; the
    RangeError of the latter rejects the callback's promise at the moment
    the stat settles. *)
Definition fsStat (fs : FileSystem) (p : string) : Async Stats.t :=
  ([CallStat p], fromFs (stat fs p)).

(** *** [Promise.all]

    Every task has been started, in order, when [Promise.all] is called, so
    all their calls are issued whatever the result. It fulfils with all the
    values, in the order of the tasks, or rejects with the rejection that
    settled first (the leftmost of those that settled together). *)

Definition Task (A : Type) : Type := (nat * Async A)%type.

Fixpoint firstRejection {A} (tasks : list (Task A)) : option (nat * JsError) :=
  match tasks with
  | [] => None
  | (t, (_, Throws e)) :: rest =>
      match firstRejection rest with
      | Some (t', e') => if Nat.ltb t' t then Some (t', e') else Some (t, e)
      | None => Some (t, e)
      end
  | (_, (_, Returns _)) :: rest => firstRejection rest
  end.

Fixpoint fulfilled {A} (tasks : list (Task A)) : list A :=
  match tasks with
  | [] => []
  | (_, (_, Returns a)) :: rest => a :: fulfilled rest
  | (_, (_, Throws _)) :: rest => fulfilled rest
  end.

Definition promiseAll {A} (tasks : list (Task A)) : Async (list A) :=
  (concat (map (fun task : Task A => fst (snd task)) tasks),
   match firstRejection tasks with
   | Some (_, e) => Throws e
   | None => Returns (fulfilled tasks)
   end).

(** *** [Array.prototype.sort]

    The sort is stable, and for a consistent comparator the result is the
    one sorted arrangement that keeps equal elements in their order; any
    stable sort computes it, here by insertion from the right. *)

Section Sort.
Context {A : Type} (compare : A -> A -> Z).

Fixpoint insertSorted (x : A) (l : list A) : list A :=
  match l with
  | [] => [x]
  | y :: rest =>
      if (compare x y <=? 0)%Z then x :: l else y :: insertSorted x rest
  end.

Definition sort (l : list A) : list A := fold_right insertSorted [] l.
End Sort.

(** ** Snapshot assembler and HTTP handler *)

Inductive Json :=
| JsonSnapshot (snapshot : DirectorySnapshot)
| JsonError (error : string).

Record Response := {
  status : nat;
  body : Json
}.

(** What a [catch] clause can receive: an [Error], or any other value. *)
Inductive Thrown :=
| ThrownError (e : JsError)
| ThrownOther.

(** [error instanceof Error ? error.message : '...'] *)
Definition failureMessage (error : Thrown) : string :=
  match error with
  | ThrownError e => message e
  | ThrownOther => "Unable to read the requested directory."
  end.

(** The callback mapped over the dirents. It fails when [fs.stat] rejects
    or the modification time cannot be written as an ISO string, both of
    which [stat] of the file system reports. *)
Definition entryTask (fs : FileSystem) (absolutePath : string)
    (dirent : Dirent.t) : Task DirectoryEntry :=
  let entryPath := Path.join absolutePath (Dirent.name dirent) in
  (settlesAt fs entryPath,
   stats <- fsStat fs entryPath ;;
   ret {| name := Dirent.name dirent;
          relativePath := Path.relative BASE_DIRECTORY entryPath;
          type := if Dirent.isDirectory dirent then directory else file;
          size := Stats.size stats;
          modified := Stats.mtimeISO stats |}).

(** [breadcrumbs.length > 1 ? breadcrumbs[breadcrumbs.length - 2].path : null] *)
Definition parentOf (breadcrumbs : list Breadcrumb) : option string :=
  if Nat.ltb 1 (List.length breadcrumbs)
  then option_map path
         (nth_error breadcrumbs (List.length breadcrumbs - 2))
  else None.

Section Program.
(** [String.prototype.localeCompare] of the host's default locale. *)
Variable localeCompare : string -> string -> Z.

Definition compareEntries (a b : DirectoryEntry) : Z :=
  if negb (EntryType_eqb (type a) (type b)) then
    match type a with directory => (-1)%Z | file => 1%Z end
  else localeCompare (name a) (name b).

Definition readDirectory (fs : FileSystem) (requestedPath : string)
    : Async DirectorySnapshot :=
  absolutePath <- liftOutcome (resolvePath requestedPath) ;;
  dirents <- fsReaddir fs absolutePath ;;
  entries <- promiseAll (map (entryTask fs absolutePath) dirents) ;;
  let entries := sort compareEntries entries in
  let breadcrumbs := buildBreadcrumbs requestedPath in
  let parentPath := parentOf breadcrumbs in
  ret {| basePath := BASE_DIRECTORY;
         requestedPath := requestedPath;
         absolutePath := absolutePath;
         parentPath := parentPath;
         breadcrumbs := breadcrumbs;
         entries := entries |}.

(** [GET]; [query] is [searchParams.get('path')], [None] when the
    parameter is absent. *)
Definition GET (fs : FileSystem) (query : option string) : Response :=
  let requestedPath :=
    match query with Some p => p | None => EmptyString end in
  match snd (readDirectory fs requestedPath) with
  | Returns snapshot => {| status := 200; body := JsonSnapshot snapshot |}
  | Throws error =>
      {| status := 400;
         body := JsonError (failureMessage (ThrownError error)) |}
  end.

End Program.

(** ** Notions used in the statements *)

(** The call the callback issues for a dirent. *)
Definition statCall (absolutePath : string) (dirent : Dirent.t) : FsCall :=
  CallStat (Path.join absolutePath (Dirent.name dirent)).

(** The entry the callback builds from a dirent and its stats. *)
Definition entryOf (absolutePath : string) (dirent : Dirent.t)
    (stats : Stats.t) : DirectoryEntry :=
  {| name := Dirent.name dirent;
     relativePath :=
       Path.relative BASE_DIRECTORY
         (Path.join absolutePath (Dirent.name dirent));
     type := if Dirent.isDirectory dirent then directory else file;
     size := Stats.size stats;
     modified := Stats.mtimeISO stats |}.

(** The entries in listing order, as [Promise.all] fulfils with them. *)
Definition listedEntries (fs : FileSystem) (absolutePath : string)
    (dirents : list Dirent.t) : list DirectoryEntry :=
  fulfilled (map (entryTask fs absolutePath) dirents).

(** The snapshot assembled once every child has been read. *)
Definition assemble (localeCompare : string -> string -> Z)
    (requestedPath absolutePath : string) (listed : list DirectoryEntry)
    : DirectorySnapshot :=
  {| basePath := BASE_DIRECTORY;
     requestedPath := requestedPath;
     absolutePath := absolutePath;
     parentPath := parentOf (buildBreadcrumbs requestedPath);
     breadcrumbs := buildBreadcrumbs requestedPath;
     entries := sort (compareEntries localeCompare) listed |}.

(** A failure response that tells nothing about paths on the server: status
    400 and an error text in which the base directory does not occur. *)
Definition genericFailure (r : Response) : Prop :=
  status r = 400
  /\ exists text, body r = JsonError text
                  /\ Js.includes text BASE_DIRECTORY = false.

(** ** What the specification asks of the resolver *)

(** Containment as a path prefix: the resolved path is the base directory,
    or starts with the base directory followed by a separator. *)
Definition withinBase (resolved : string) : bool :=
  String.eqb resolved BASE_DIRECTORY
  || Js.startsWith resolved (BASE_DIRECTORY ++ "/").

(** The crumbs the specification describes for a list of segments: the
    root crumb, then for the i-th segment its name and the first i segments
    joined by '/'. *)
Definition crumbsOfSegments (segments : list string) : list Breadcrumb :=
  {| label := Path.basename BASE_DIRECTORY; path := EmptyString |}
  :: map (fun i => {| label := nth i segments EmptyString;
                      path := Js.join (firstn (S i) segments) |})
       (seq 0 (List.length segments)).

Fixpoint hasSlash (s : string) : bool :=
  match s with
  | EmptyString => false
  | String c rest => Ascii.eqb c "/" || hasSlash rest
  end.

(** ** Concrete hosts, for examples *)

(** A file system given by a table from absolute paths to what is there:
    a file, a directory with its listing, a directory that may not be read,
    or a file whose modification time lies outside the range of dates. *)
Inductive Node :=
| FileNode (size : N) (mtime : string)
| DirNode (mtime : string) (children : list Dirent.t)
| LockedDir (mtime : string)
| UndatedFile (size : N).

Fixpoint lookup (table : list (string * Node)) (p : string) : option Node :=
  match table with
  | [] => None
  | (q, node) :: rest => if String.eqb q p then Some node else lookup rest p
  end.

Definition ENOENT (call p : string) : ReadFailure :=
  SystemFailure
    {| sysCode := "ENOENT"; sysText := "no such file or directory";
       sysCall := call; sysPath := p |}.

Definition ENOTDIR (call p : string) : ReadFailure :=
  SystemFailure
    {| sysCode := "ENOTDIR"; sysText := "not a directory";
       sysCall := call; sysPath := p |}.

Definition EACCES (call p : string) : ReadFailure :=
  SystemFailure
    {| sysCode := "EACCES"; sysText := "permission denied";
       sysCall := call; sysPath := p |}.

Fixpoint hasNul (s : string) : bool :=
  match s with
  | EmptyString => false
  | String c rest => Ascii.eqb c Ascii.zero || hasNul rest
  end.

(** A path as [util.inspect] shows it, for the paths of the examples:
    between single quotes, each null byte written as backslash, x, 0, 0. *)
Fixpoint showNul (s : string) : string :=
  match s with
  | EmptyString => EmptyString
  | String c rest =>
      if Ascii.eqb c Ascii.zero then "\x00" ++ showNul rest
      else String c (showNul rest)
  end.

(** How [fs] rejects a path that holds a null byte, before any system
    call. *)
Definition nullBytes (p : string) : ReadFailure :=
  InvalidArgValue
    "must be a string, Uint8Array, or URL without null bytes"
    ("'" ++ showNul p ++ "'").

Definition tableFs (table : list (string * Node)) : FileSystem :=
  {| readdir := fun p =>
       if hasNul p then inl (nullBytes p) else
       match lookup table p with
       | None => inl (ENOENT "scandir" p)
       | Some (FileNode _ _) | Some (UndatedFile _) =>
           inl (ENOTDIR "scandir" p)
       | Some (LockedDir _) => inl (EACCES "scandir" p)
       | Some (DirNode _ children) => inr children
       end;
     stat := fun p =>
       if hasNul p then inl (nullBytes p) else
       match lookup table p with
       | None => inl (ENOENT "stat" p)
       | Some (FileNode size mtime) =>
           inr {| Stats.size := size; Stats.mtimeISO := mtime |}
       | Some (DirNode mtime _) | Some (LockedDir mtime) =>
           inr {| Stats.size := 4096; Stats.mtimeISO := mtime |}
       | Some (UndatedFile _) => inl InvalidTime
       end;
     settlesAt := fun _ => 0 |}.

(** Comparison by code units, the order of the plainest locale. *)
Definition ordinalCompare (a b : string) : Z :=
  match String.compare a b with
  | Lt => (-1)%Z
  | Eq => 0%Z
  | Gt => 1%Z
  end.

Definition epoch : string := "1970-01-01T00:00:00.000Z".

Definition emptyBase : FileSystem :=
  tableFs [("/dp-apps", DirNode epoch [])].

(** A base directory whose one child has a modification time outside the
    range of dates. *)
Definition undatedTree : FileSystem :=
  tableFs
    [("/dp-apps",
      DirNode epoch
        [{| Dirent.name := "old"; Dirent.isDirectory := false |}]);
     ("/dp-apps/old", UndatedFile 1)].

Definition sampleChildren : list Dirent.t :=
  [{| Dirent.name := "b.txt"; Dirent.isDirectory := false |};
   {| Dirent.name := "A"; Dirent.isDirectory := true |};
   {| Dirent.name := "a.txt"; Dirent.isDirectory := false |};
   {| Dirent.name := "B"; Dirent.isDirectory := true |}].

Definition sampleTree : FileSystem :=
  tableFs
    [("/dp-apps", DirNode epoch sampleChildren);
     ("/dp-apps/b.txt", FileNode 12 epoch);
     ("/dp-apps/A", DirNode epoch []);
     ("/dp-apps/a.txt", FileNode 7 epoch);
     ("/dp-apps/B", LockedDir epoch);
     ("/dp-apps-evil", DirNode epoch
        [{| Dirent.name := "secret"; Dirent.isDirectory := false |}]);
     ("/dp-apps-evil/secret", FileNode 42 epoch)].

(** ** Plain segments *)

(** A segment that names something: not empty, not '.', not '..', and
    without a separator inside. File names are plain. *)
Definition plain (seg : string) : bool :=
  Js.truthy seg && negb (String.eqb seg ".") && negb (String.eqb seg "..")
  && negb (hasSlash seg).

(** The non-empty segments of a requested path, as [buildBreadcrumbs]
    takes them. *)
Definition segmentsOf (requestedPath : string) : list string :=
  filter Js.truthy (Js.split requestedPath).

(** The sample tree with its children listed in the reverse order. *)
Definition reorderedTree : FileSystem :=
  tableFs
    [("/dp-apps", DirNode epoch (rev sampleChildren));
     ("/dp-apps/b.txt", FileNode 12 epoch);
     ("/dp-apps/A", DirNode epoch []);
     ("/dp-apps/a.txt", FileNode 7 epoch);
     ("/dp-apps/B", LockedDir epoch);
     ("/dp-apps-evil", DirNode epoch
        [{| Dirent.name := "secret"; Dirent.isDirectory := false |}]);
     ("/dp-apps-evil/secret", FileNode 42 epoch)].

(** ** The explorer component

    The state of [DirectoryExplorer] and the handlers that update it. One
    call of [fetchDirectory] is followed from its first [setLoading] to its
    [finally], with no other update in between. *)

Module Explorer.

(** The crumbs shown before any snapshot has arrived. *)
Definition rootCrumbs : list Breadcrumb :=
  [{| label := "dp-apps"; path := EmptyString |}].

(** What the [catch] clause of [fetchDirectory] can receive. *)
Inductive Caught :=
| CaughtError (message : string)
| CaughtOther.

(** How [fetch] and [response.json()] went: one of them rejected, or the
    response arrived with its status and parsed body. *)
Inductive FetchOutcome :=
| FetchRejected (err : Caught)
| FetchResponded (response : Response).

(** The [useState] cells. *)
Record State := {
  path : string;
  data : option Json;
  loading : bool;
  error : option string
}.

(** [response.ok] *)
Definition ok (response : Response) : bool :=
  Nat.leb 200 (status response) && Nat.leb (status response) 299.

(** [payload?.error || 'Unable to load directory contents.'] *)
Definition errorOf (payload : Json) : string :=
  match payload with
  | JsonError text =>
      if Js.truthy text then text else "Unable to load directory contents."
  | JsonSnapshot _ => "Unable to load directory contents."
  end.

(** The body of the [try]: the payload handed to [setData], or what is
    thrown to the [catch]. *)
Definition attempt (outcome : FetchOutcome) : Caught + Json :=
  match outcome with
  | FetchRejected err => inl err
  | FetchResponded response =>
      if negb (ok response)
      then inl (CaughtError (errorOf (body response)))
      else inr (body response)
  end.

Definition fetchDirectory (s : State) (outcome : FetchOutcome) : State :=
  let s := {| path := path s; data := data s;
              loading := true; error := None |} in
  let s :=
    match attempt outcome with
    | inr payload =>
        {| path := path s; data := Some payload;
           loading := loading s; error := error s |}
    | inl err =>
        let message :=
          match err with
          | CaughtError text => text
          | CaughtOther => "Unexpected error while loading."
          end in
        {| path := path s; data := None;
           loading := loading s; error := Some message |}
    end in
  {| path := path s; data := data s; loading := false; error := error s |}.

(** [data?.breadcrumbs ?? [{ label: 'dp-apps', path: '' }]] *)
Definition shownBreadcrumbs (s : State) : list Breadcrumb :=
  match data s with
  | Some (JsonSnapshot snapshot) => breadcrumbs snapshot
  | _ => rootCrumbs
  end.

(** [data?.parentPath]: a string, [null], or [undefined] when there is no
    snapshot. *)
Inductive Parent :=
| ParentPath (p : string)
| ParentNull
| ParentUndefined.

Definition parentOfData (s : State) : Parent :=
  match data s with
  | Some (JsonSnapshot snapshot) =>
      match parentPath snapshot with
      | Some p => ParentPath p
      | None => ParentNull
      end
  | _ => ParentUndefined
  end.

(** [disabled] of the button 'Up one level':
    [data?.parentPath === null || loading]. *)
Definition upDisabled (s : State) : bool :=
  match parentOfData s with
  | ParentNull => true
  | _ => false
  end || loading s.

(** [onClick] of the button 'Up one level':
    [if (parent != null) setPath(parent)]. *)
Definition clickUp (s : State) : State :=
  match parentOfData s with
  | ParentPath p =>
      {| path := p; data := data s; loading := loading s; error := error s |}
  | _ => s
  end.

End Explorer.

(** The request [fetchDirectory] sends for a path, answered by the handler:
    the query parameter the handler reads is the path the component
    encoded. *)
Definition serve (localeCompare : string -> string -> Z) (fs : FileSystem)
    (pathToLoad : string) : Explorer.FetchOutcome :=
  Explorer.FetchResponded (GET localeCompare fs (Some pathToLoad)).

(** * Properties *)

(** ** The pipeline, step by step *)

Lemma entryTask_calls fs absolutePath dirent :
  fst (snd (entryTask fs absolutePath dirent)) = [statCall absolutePath dirent].
Proof.
  unfold entryTask, fsStat, bind, ret, fromFs, statCall; simpl.
  destruct (stat fs _); reflexivity.
Qed.

Lemma entryTask_outcome fs absolutePath dirent :
  snd (snd (entryTask fs absolutePath dirent)) =
  match stat fs (Path.join absolutePath (Dirent.name dirent)) with
  | inl e => Throws (ReadError e)
  | inr stats => Returns (entryOf absolutePath dirent stats)
  end.
Proof.
  unfold entryTask, fsStat, bind, ret, fromFs; simpl.
  destruct (stat fs _); reflexivity.
Qed.

Lemma promiseAll_calls fs absolutePath dirents :
  fst (promiseAll (map (entryTask fs absolutePath) dirents)) =
  map (statCall absolutePath) dirents.
Proof.
  unfold promiseAll; cbn [fst].
  induction dirents as [|d ds IH]; cbn [map concat]; [reflexivity|].
  rewrite entryTask_calls, IH. reflexivity.
Qed.

Lemma readDirectory_unfold localeCompare fs requestedPath :
  readDirectory localeCompare fs requestedPath =
  match resolvePath requestedPath with
  | Throws e => ([], Throws e)
  | Returns absolutePath =>
      match readdir fs absolutePath with
      | inl e => ([CallReaddir absolutePath], Throws (ReadError e))
      | inr dirents =>
          let tasks := map (entryTask fs absolutePath) dirents in
          (CallReaddir absolutePath :: map (statCall absolutePath) dirents,
           match firstRejection tasks with
           | Some (_, e) => Throws e
           | None =>
               Returns (assemble localeCompare requestedPath absolutePath
                          (fulfilled tasks))
           end)
      end
  end.
Proof.
  unfold readDirectory, liftOutcome, fsReaddir, fromFs.
  destruct (resolvePath requestedPath) as [absolutePath|e]; [|reflexivity].
  cbn [bind].
  destruct (readdir fs absolutePath) as [e|dirents]; [reflexivity|].
  cbn [bind app].
  pose proof (promiseAll_calls fs absolutePath dirents) as Hcalls.
  destruct (promiseAll (map (entryTask fs absolutePath) dirents))
    as [calls outcome] eqn:Hall.
  cbn [fst] in Hcalls. subst calls.
  unfold promiseAll in Hall. injection Hall as _ Hout. subst outcome.
  cbv zeta.
  destruct (firstRejection (map (entryTask fs absolutePath) dirents))
    as [[t e]|]; cbn [bind ret].
  - reflexivity.
  - rewrite app_nil_r. reflexivity.
Qed.

(** [Promise.all] rejects exactly when some task rejected, and then with
    the rejection of one of the tasks. *)
Lemma firstRejection_In {A} (tasks : list (Task A)) t e :
  firstRejection tasks = Some (t, e) ->
  exists calls, In (t, (calls, Throws e)) tasks.
Proof.
  revert t e. induction tasks as [|[t0 [calls0 [a|e0]]] rest IH]; intros t e H.
  - discriminate.
  - cbn [firstRejection] in H.
    destruct (IH _ _ H) as [calls Hin]. exists calls. now right.
  - cbn [firstRejection] in H. destruct (firstRejection rest) as [[t' e']|].
    + destruct (Nat.ltb t' t0).
      * injection H as -> ->. destruct (IH _ _ eq_refl) as [calls Hin].
        exists calls. now right.
      * injection H as -> ->. exists calls0. now left.
    + injection H as -> ->. exists calls0. now left.
Qed.

Lemma firstRejection_None {A} (tasks : list (Task A)) :
  firstRejection tasks = None <->
  Forall (fun task => exists a, snd (snd task) = Returns a) tasks.
Proof.
  induction tasks as [|[t0 [calls0 [a|e0]]] rest IH]; cbn [firstRejection].
  - split; auto.
  - rewrite IH. split.
    + intros H. constructor; [now exists a | exact H].
    + intros H. now inversion H.
  - split.
    + destruct (firstRejection rest) as [[t' e']|];
        [destruct (Nat.ltb t' t0)|]; discriminate.
    + intros H. inversion H as [|? ? [a Ha] _]. discriminate.
Qed.

Lemma fulfilled_cons {A} (task : Task A) rest a :
  snd (snd task) = Returns a ->
  fulfilled (task :: rest) = a :: fulfilled rest.
Proof.
  destruct task as [t [calls out]]; cbn. now intros ->.
Qed.

(** The values [Promise.all] fulfils with correspond one to one, in
    order, to the dirents. *)
Lemma fulfilled_entries fs absolutePath dirents :
  firstRejection (map (entryTask fs absolutePath) dirents) = None ->
  Forall2
    (fun dirent entry =>
       exists stats,
         stat fs (Path.join absolutePath (Dirent.name dirent)) = inr stats
         /\ entry = entryOf absolutePath dirent stats)
    dirents
    (fulfilled (map (entryTask fs absolutePath) dirents)).
Proof.
  induction dirents as [|d ds IH]; intros H; cbn [map].
  - constructor.
  - rewrite firstRejection_None in H. cbn [map] in H.
    inversion H as [|? ? [a Ha] Hrest]; subst.
    rewrite (fulfilled_cons _ _ _ Ha).
    rewrite entryTask_outcome in Ha.
    destruct (stat fs (Path.join absolutePath (Dirent.name d)))
      as [e|stats] eqn:Hstat; [discriminate|].
    injection Ha as <-. constructor.
    + exists stats. split; [exact Hstat | reflexivity].
    + apply IH. now apply firstRejection_None.
Qed.

(** ** Sorting *)

Section SortFacts.
Context {A : Type} (compare : A -> A -> Z).

Lemma insertSorted_perm x l : Permutation (x :: l) (insertSorted compare x l).
Proof.
  induction l as [|y l IH]; cbn; [reflexivity|].
  destruct (compare x y <=? 0)%Z; [reflexivity|].
  rewrite perm_swap. now constructor.
Qed.

Lemma sort_perm l : Permutation l (sort compare l).
Proof.
  induction l as [|x l IH]; cbn; [constructor|].
  rewrite <- insertSorted_perm. now constructor.
Qed.

(** A consistent comparator, in the sense of ECMAScript: comparing the
    other way round flips the sign, and the order is transitive. *)
Hypothesis compare_flip :
  forall a b, Z.sgn (compare b a) = (- Z.sgn (compare a b))%Z.
Hypothesis compare_trans :
  forall a b c,
    (compare a b <= 0)%Z -> (compare b c <= 0)%Z -> (compare a c <= 0)%Z.

Lemma insertSorted_sorted x l :
  StronglySorted (fun a b => (compare a b <= 0)%Z) l ->
  StronglySorted (fun a b => (compare a b <= 0)%Z) (insertSorted compare x l).
Proof.
  induction 1 as [|y l Hl IH Hy]; cbn.
  - repeat constructor.
  - destruct (compare x y <=? 0)%Z eqn:Hxy.
    + apply Z.leb_le in Hxy. constructor.
      * now constructor.
      * constructor; [exact Hxy|].
        eapply Forall_impl; [|exact Hy].
        intros z Hz. cbn in *. now apply (compare_trans x y z).
    + apply Z.leb_gt in Hxy. constructor; [exact IH|].
      apply (Permutation_Forall (insertSorted_perm x l)).
      constructor; [|exact Hy].
      pose proof (compare_flip x y). cbn. lia.
Qed.

Lemma sort_sorted l :
  StronglySorted (fun a b => (compare a b <= 0)%Z) (sort compare l).
Proof.
  induction l as [|x l IH]; cbn; [constructor|].
  now apply insertSorted_sorted.
Qed.

(** Stability: the elements that tie with [k] keep their order. *)
Lemma insertSorted_stable k x l :
  filter (fun e => (compare e k =? 0)%Z) (insertSorted compare x l) =
  filter (fun e => (compare e k =? 0)%Z) (x :: l).
Proof.
  induction l as [|y l IH]; [reflexivity|].
  cbn [insertSorted].
  destruct (compare x y <=? 0)%Z eqn:Hxy; [reflexivity|].
  apply Z.leb_gt in Hxy.
  cbn [filter] in *. rewrite IH.
  destruct (compare x k =? 0)%Z eqn:Hx; [|reflexivity].
  destruct (compare y k =? 0)%Z eqn:Hy; [|reflexivity].
  apply Z.eqb_eq in Hx, Hy. exfalso.
  pose proof (compare_flip y k) as Hky.
  assert (compare k y <= 0)%Z as Hle by lia.
  assert (compare x k <= 0)%Z as Hle' by lia.
  pose proof (compare_trans x k y Hle' Hle). lia.
Qed.

Lemma sort_stable k l :
  filter (fun e => (compare e k =? 0)%Z) (sort compare l) =
  filter (fun e => (compare e k =? 0)%Z) l.
Proof.
  induction l as [|x l IH]; [reflexivity|].
  cbn [sort fold_right]. rewrite insertSorted_stable.
  cbn [filter]. fold (sort compare l). now rewrite IH.
Qed.
End SortFacts.

(** [compareEntries] is consistent as soon as [localeCompare] is. *)
Section CompareEntries.
Variable localeCompare : string -> string -> Z.
Hypothesis localeCompare_flip :
  forall a b, Z.sgn (localeCompare b a) = (- Z.sgn (localeCompare a b))%Z.
Hypothesis localeCompare_trans :
  forall a b c,
    (localeCompare a b <= 0)%Z -> (localeCompare b c <= 0)%Z ->
    (localeCompare a c <= 0)%Z.

Lemma compareEntries_flip a b :
  Z.sgn (compareEntries localeCompare b a)
  = (- Z.sgn (compareEntries localeCompare a b))%Z.
Proof.
  unfold compareEntries.
  destruct (type a), (type b); cbn; auto.
Qed.

Lemma compareEntries_trans a b c :
  (compareEntries localeCompare a b <= 0)%Z ->
  (compareEntries localeCompare b c <= 0)%Z ->
  (compareEntries localeCompare a c <= 0)%Z.
Proof.
  unfold compareEntries.
  destruct (type a), (type b), (type c); cbn; try lia; eauto.
Qed.

(** What [compareEntries a b <= 0] says. *)
Lemma compareEntries_le a b :
  (compareEntries localeCompare a b <= 0)%Z <->
  (type a = directory /\ type b = file)
  \/ (type a = type b /\ (localeCompare (name a) (name b) <= 0)%Z).
Proof.
  unfold compareEntries.
  destruct (type a), (type b); cbn; split; intros H;
    try lia; auto;
    destruct H as [[? ?]|[? ?]]; try discriminate; auto; lia.
Qed.
End CompareEntries.

(** ** Strings and segments *)

Lemma split_not_nil s : Js.split s <> [].
Proof.
  destruct s as [|c s]; cbn; [discriminate|].
  destruct (Ascii.eqb c "/"); [discriminate|].
  destruct (Js.split s); discriminate.
Qed.

Lemma join_cons_char c seg segs :
  Js.join (String c seg :: segs) = String c (Js.join (seg :: segs)).
Proof.
  destruct segs; reflexivity.
Qed.

(** Splitting loses nothing: joining the pieces gives the string back. *)
Lemma join_split s : Js.join (Js.split s) = s.
Proof.
  induction s as [|c s IH]; [reflexivity|].
  cbn [Js.split].
  destruct (Ascii.eqb c "/") eqn:Hc.
  - apply Ascii.eqb_eq in Hc. subst c.
    pose proof (split_not_nil s) as Hne.
    destruct (Js.split s) as [|seg segs]; [contradiction|].
    cbn [Js.join]. cbn [Js.join] in IH. now rewrite IH.
  - pose proof (split_not_nil s) as Hne.
    destruct (Js.split s) as [|seg segs]; [contradiction|].
    rewrite join_cons_char. now rewrite IH.
Qed.

(** No piece contains a separator. *)
Lemma split_no_slash s : Forall (fun seg => hasSlash seg = false) (Js.split s).
Proof.
  induction s as [|c s IH]; cbn [Js.split].
  - now constructor.
  - destruct (Ascii.eqb c "/") eqn:Hc.
    + now constructor.
    + destruct (Js.split s) as [|seg segs].
      * constructor; [|constructor]. cbn. now rewrite Hc.
      * inversion IH; subst. constructor; [|assumption].
        cbn. now rewrite Hc.
Qed.

Lemma truthy_join done :
  done <> [] -> Forall (fun seg => Js.truthy seg = true) done ->
  Js.truthy (Js.join done) = true.
Proof.
  destruct done as [|seg rest]; [contradiction|].
  intros _ H. inversion H as [|? ? Hseg _]; subst.
  destruct seg as [|c seg]; [discriminate|].
  rewrite join_cons_char. reflexivity.
Qed.

Lemma string_app_assoc (a b c : string) : (a ++ b) ++ c = a ++ b ++ c.
Proof.
  induction a as [|x a IH]; cbn; [reflexivity | now rewrite IH].
Qed.

Lemma join_snoc done seg :
  Js.join (done ++ [seg])%list =
  match done with
  | [] => seg
  | _ => Js.join done ++ "/" ++ seg
  end.
Proof.
  induction done as [|x rest IH]; [reflexivity|].
  destruct rest as [|y rest]; [reflexivity|].
  change ((x :: y :: rest) ++ [seg])%list
    with (x :: ((y :: rest) ++ [seg]))%list.
  change (Js.join (x :: ((y :: rest) ++ [seg])%list))
    with (x ++ "/" ++ Js.join ((y :: rest) ++ [seg])%list).
  rewrite IH.
  change (Js.join (x :: y :: rest)) with (x ++ "/" ++ Js.join (y :: rest)).
  now rewrite !string_app_assoc.
Qed.

(** ** Breadcrumbs *)

Lemma crumbStep_next done crumbs seg :
  Forall (fun s => Js.truthy s = true) done ->
  crumbStep {| pathAcc := Js.join done; accBreadcrumbs := crumbs |} seg =
  {| pathAcc := Js.join (done ++ [seg])%list;
     accBreadcrumbs :=
       (crumbs ++ [{| label := seg;
                      path := Js.join (done ++ [seg])%list |}])%list |}.
Proof.
  intros Hdone. unfold crumbStep. cbn [pathAcc accBreadcrumbs].
  rewrite join_snoc.
  destruct done as [|x rest]; [reflexivity|].
  rewrite truthy_join; [reflexivity | discriminate | assumption].
Qed.

Lemma crumbs_fold segs : forall done crumbs,
  Forall (fun s => Js.truthy s = true) done ->
  Forall (fun s => Js.truthy s = true) segs ->
  accBreadcrumbs
    (fold_left crumbStep segs
       {| pathAcc := Js.join done; accBreadcrumbs := crumbs |}) =
  (crumbs ++
   map (fun i => {| label := nth i (done ++ segs)%list EmptyString;
                    path := Js.join (firstn (S i) (done ++ segs)%list) |})
     (seq (List.length done) (List.length segs)))%list.
Proof.
  induction segs as [|seg segs IH]; intros done crumbs Hdone Hsegs.
  - cbn. now rewrite app_nil_r.
  - inversion Hsegs as [|? ? Hseg Hrest]; subst.
    cbn [fold_left]. rewrite crumbStep_next by assumption.
    rewrite IH; [|apply Forall_app; split; [assumption|now constructor]
                 |assumption].
    rewrite <- !app_assoc. cbn [app List.length seq map].
    rewrite length_app. cbn [List.length]. rewrite Nat.add_1_r.
    do 2 f_equal.
    rewrite app_nth2, Nat.sub_diag by lia. cbn [nth].
    f_equal.
    replace (S (List.length done)) with (List.length (done ++ [seg])%list)
      by (rewrite length_app; cbn; lia).
    change (done ++ seg :: segs)%list with (done ++ [seg] ++ segs)%list.
    rewrite app_assoc, firstn_app, firstn_all, Nat.sub_diag.
    cbn [firstn]. now rewrite app_nil_r.
Qed.

Lemma buildBreadcrumbs_crumbsOfSegments requestedPath :
  buildBreadcrumbs requestedPath =
  crumbsOfSegments (filter Js.truthy (Js.split requestedPath)).
Proof.
  unfold buildBreadcrumbs, crumbsOfSegments.
  rewrite (crumbs_fold _ []); [reflexivity | constructor |].
  apply Forall_forall. intros seg Hin. now apply filter_In in Hin.
Qed.

Lemma buildBreadcrumbs_length requestedPath :
  List.length (buildBreadcrumbs requestedPath)
  = S (List.length (filter Js.truthy (Js.split requestedPath))).
Proof.
  rewrite buildBreadcrumbs_crumbsOfSegments. unfold crumbsOfSegments.
  cbn [List.length]. now rewrite length_map, length_seq.
Qed.

(** C6: the breadcrumb builder returns the root crumb (labelled with the
    base directory's own name, 'dp-apps', with the empty path) followed by
    one crumb per non-empty segment of the raw requested path, each labelled
    with its segment and carrying the segments up to it joined by '/'. The
    segments are the pieces between separators: none contains a '/', and
    joined by '/' they give the requested path back. For 'foo/bar' the
    crumbs are root, foo at 'foo', bar at 'foo/bar'. *)
Theorem buildBreadcrumbs_spec (requestedPath : string) :
  let segments := filter Js.truthy (Js.split requestedPath) in
  buildBreadcrumbs requestedPath =
    {| label := "dp-apps"; path := EmptyString |}
    :: map (fun i => {| label := nth i segments EmptyString;
                        path := Js.join (firstn (S i) segments) |})
         (seq 0 (List.length segments))
  /\ List.length (buildBreadcrumbs requestedPath) = S (List.length segments)
  /\ Js.join (Js.split requestedPath) = requestedPath
  /\ Forall (fun seg => hasSlash seg = false) (Js.split requestedPath)
  /\ buildBreadcrumbs "foo/bar" =
       [{| label := "dp-apps"; path := EmptyString |};
        {| label := "foo"; path := "foo" |};
        {| label := "bar"; path := "foo/bar" |}].
Proof.
  cbv zeta. split; [|split; [|split; [|split]]].
  - now rewrite buildBreadcrumbs_crumbsOfSegments.
  - apply buildBreadcrumbs_length.
  - apply join_split.
  - apply split_no_slash.
  - reflexivity.
Qed.

(** ** Outcomes of [readDirectory] *)

Lemma readDirectory_returns localeCompare fs requestedPath snapshot :
  snd (readDirectory localeCompare fs requestedPath) = Returns snapshot ->
  exists absolutePath dirents,
    resolvePath requestedPath = Returns absolutePath
    /\ readdir fs absolutePath = inr dirents
    /\ firstRejection (map (entryTask fs absolutePath) dirents) = None
    /\ snapshot =
         assemble localeCompare requestedPath absolutePath
           (fulfilled (map (entryTask fs absolutePath) dirents)).
Proof.
  rewrite readDirectory_unfold.
  destruct (resolvePath requestedPath) as [absolutePath|e]; [|discriminate].
  destruct (readdir fs absolutePath) as [e|dirents] eqn:Hdir; [discriminate|].
  cbn [snd].
  destruct (firstRejection (map (entryTask fs absolutePath) dirents))
    as [[t e]|] eqn:Hrej; [discriminate|].
  intros H. injection H as <-.
  exists absolutePath, dirents. repeat split; assumption.
Qed.

Lemma resolvePath_throws requestedPath e :
  resolvePath requestedPath = Throws e -> e = OutOfBoundsError.
Proof.
  unfold resolvePath. destruct (negb _); [|discriminate].
  now intros [= <-].
Qed.

(** What the resolver returns has the base directory as a string prefix. *)
Lemma resolvePath_returns_prefix requestedPath absolutePath :
  resolvePath requestedPath = Returns absolutePath ->
  Js.startsWith absolutePath BASE_DIRECTORY = true.
Proof.
  unfold resolvePath.
  destruct (Js.startsWith _ BASE_DIRECTORY) eqn:H; cbn; [|discriminate].
  now intros [= <-].
Qed.

Lemma prefix_app_left a b s :
  String.prefix (a ++ b) s = true -> String.prefix a s = true.
Proof.
  revert s. induction a as [|c a IH]; intros s; [now destruct s|].
  destruct s as [|c' s]; cbn; [discriminate|].
  destruct (ascii_dec c c'); [apply IH | discriminate].
Qed.

(** Containment as the specification words it entails the prefix test of
    the code, not the other way round. *)
Lemma withinBase_startsWith resolved :
  withinBase resolved = true ->
  Js.startsWith resolved BASE_DIRECTORY = true.
Proof.
  unfold withinBase, Js.startsWith. intros H.
  apply Bool.orb_true_iff in H. destruct H as [H|H].
  - apply String.eqb_eq in H. now subst resolved.
  - exact (prefix_app_left _ _ _ H).
Qed.

Lemma resolvePath_rejects_etc :
  resolvePath "../../etc" = Throws OutOfBoundsError.
Proof. reflexivity. Qed.

(** ** The resolver's containment check *)

(** C1: the resolver does not reject a sibling of the base directory that
    shares its prefix. The request '../dp-apps-evil' resolves to
    '/dp-apps-evil', which is neither the base directory nor below it, and
    the resolver returns it; on a file system that has this directory,
    [readDirectory] returns a snapshot of it. *)
Theorem resolvePath_accepts_sibling :
  resolvePath "../dp-apps-evil" = Returns "/dp-apps-evil"
  /\ withinBase "/dp-apps-evil" = false
  /\ exists snapshot,
       snd (readDirectory ordinalCompare sampleTree "../dp-apps-evil")
         = Returns snapshot
       /\ absolutePath snapshot = "/dp-apps-evil"
       /\ map relativePath (entries snapshot) = ["../dp-apps-evil/secret"].
Proof.
  split; [reflexivity|]. split; [reflexivity|].
  eexists. split; [vm_compute; reflexivity|].
  split; reflexivity.
Qed.

(** C2: a request that normalises outside the base directory is not always
    refused. '../dp-apps-evil' normalises to '/dp-apps-evil', outside the
    base directory, yet on no file system does [readDirectory] fail with
    the out-of-bounds error: it goes on to list '/dp-apps-evil'. *)
Theorem escape_to_sibling_not_refused
    (localeCompare : string -> string -> Z) (fs : FileSystem) :
  Path.resolve BASE_DIRECTORY (Js.stripLeadingSlashes "../dp-apps-evil")
    = "/dp-apps-evil"
  /\ withinBase "/dp-apps-evil" = false
  /\ snd (readDirectory localeCompare fs "../dp-apps-evil")
       <> Throws OutOfBoundsError
  /\ hd_error (fst (readDirectory localeCompare fs "../dp-apps-evil"))
       = Some (CallReaddir "/dp-apps-evil").
Proof.
  split; [reflexivity|]. split; [reflexivity|].
  rewrite readDirectory_unfold.
  change (resolvePath "../dp-apps-evil") with (Returns "/dp-apps-evil").
  cbv iota.
  destruct (readdir fs "/dp-apps-evil") as [e|dirents] eqn:Hdir.
  - split; [discriminate | reflexivity].
  - cbv zeta. cbn [fst snd hd_error]. split; [|reflexivity].
    destruct (firstRejection (map (entryTask fs "/dp-apps-evil") dirents))
      as [[t e]|] eqn:Hrej; [|discriminate].
    apply firstRejection_In in Hrej. destruct Hrej as [calls Hin].
    apply in_map_iff in Hin. destruct Hin as [d [Hd _]].
    pose proof (entryTask_outcome fs "/dp-apps-evil" d) as Hout.
    rewrite Hd in Hout. cbn [snd] in Hout.
    destruct (stat fs _); [|discriminate].
    injection Hout as ->. discriminate.
Qed.

(** X15: a request that [resolvePath] refuses makes [readDirectory]
    fail with the out-of-bounds error without any file-system call, so the
    outcome is the same on every file system. *)
Theorem out_of_bounds_before_fs
    (localeCompare : string -> string -> Z) (requestedPath : string)
    (e : JsError) :
  resolvePath requestedPath = Throws e ->
  e = OutOfBoundsError
  /\ forall fs,
       readDirectory localeCompare fs requestedPath
         = ([], Throws OutOfBoundsError).
Proof.
  intros H. pose proof (resolvePath_throws _ _ H) as ->.
  split; [reflexivity|]. intros fs.
  rewrite readDirectory_unfold. now rewrite H.
Qed.

Lemma out_of_bounds_before_fs_witness :
  readDirectory ordinalCompare sampleTree "../../etc"
    = ([], Throws OutOfBoundsError).
Proof.
  exact (proj2 (out_of_bounds_before_fs ordinalCompare "../../etc"
                  OutOfBoundsError eq_refl) sampleTree).
Defined.

(** C8: an out-of-bounds request can reach the file system. The request
    '../dp-apps-evil' resolves outside the base directory, yet the
    containment check lets it pass: [readDirectory] calls [readdir] on the
    sibling, and the outcome depends on the file system, a read error where
    the sibling does not exist and a snapshot where it does. *)
Theorem out_of_bounds_sibling_reaches_fs :
  withinBase
    (Path.resolve BASE_DIRECTORY (Js.stripLeadingSlashes "../dp-apps-evil"))
    = false
  /\ readDirectory ordinalCompare emptyBase "../dp-apps-evil"
     = ([CallReaddir "/dp-apps-evil"],
        Throws (ReadError (ENOENT "scandir" "/dp-apps-evil")))
  /\ fst (readDirectory ordinalCompare sampleTree "../dp-apps-evil")
     = [CallReaddir "/dp-apps-evil"; CallStat "/dp-apps-evil/secret"]
  /\ exists snapshot,
       snd (readDirectory ordinalCompare sampleTree "../dp-apps-evil")
         = Returns snapshot.
Proof.
  split; [reflexivity|]. split; [reflexivity|]. split; [reflexivity|].
  eexists. vm_compute. reflexivity.
Qed.

(** ** The HTTP handler *)

(** C3, as stated, fails: asking for a directory that does not exist is
    answered with the file system's own message, which spells out the
    resolved absolute path. *)
Lemma GET_exposes_resolved_path :
  snd (readDirectory ordinalCompare emptyBase "nope")
    = Throws (ReadError (ENOENT "scandir" "/dp-apps/nope"))
  /\ GET ordinalCompare emptyBase (Some "nope")
     = {| status := 400;
          body := JsonError
            "ENOENT: no such file or directory, scandir '/dp-apps/nope'" |}
  /\ ~ genericFailure (GET ordinalCompare emptyBase (Some "nope")).
Proof.
  split; [reflexivity|]. split; [reflexivity|].
  intros [_ [text [Hbody Hinc]]].
  cbv in Hbody. injection Hbody as <-. vm_compute in Hinc. discriminate.
Qed.

(** What [readDirectory] throws, and where it comes from. *)
Lemma readDirectory_throws localeCompare fs requestedPath e :
  snd (readDirectory localeCompare fs requestedPath) = Throws e ->
  match resolvePath requestedPath with
  | Throws _ => e = OutOfBoundsError
  | Returns resolved =>
      exists failure,
        e = ReadError failure
        /\ (readdir fs resolved = inl failure
            \/ exists dirents d,
                 readdir fs resolved = inr dirents
                 /\ In d dirents
                 /\ stat fs (Path.join resolved (Dirent.name d))
                      = inl failure)
  end.
Proof.
  rewrite readDirectory_unfold.
  destruct (resolvePath requestedPath) as [resolved|e0] eqn:Hres.
  - destruct (readdir fs resolved) as [failure|dirents] eqn:Hdir.
    + intros [= <-]. exists failure. split; [reflexivity | now left].
    + cbv zeta. cbn [snd].
      destruct (firstRejection (map (entryTask fs resolved) dirents))
        as [[t e']|] eqn:Hrej; [|discriminate].
      intros [= <-].
      apply firstRejection_In in Hrej. destruct Hrej as [calls Hin].
      apply in_map_iff in Hin. destruct Hin as [d [Hd Hin]].
      pose proof (entryTask_outcome fs resolved d) as Hout.
      rewrite Hd in Hout. cbn [snd] in Hout.
      destruct (stat fs (Path.join resolved (Dirent.name d)))
        as [failure|stats] eqn:Hstat; [|discriminate].
      injection Hout as ->. exists failure. split; [reflexivity|].
      right. exists dirents, d. auto.
  - intros [= <-]. now apply resolvePath_throws in Hres.
Qed.

(** C3, amended: the handler answers with status 200 and the snapshot
    when [readDirectory] returns one, and otherwise with status 400 and, as
    the error string, the message of the error thrown. That is the fixed
    out-of-bounds text when [resolvePath] refused the request; otherwise it
    is the message of a failed read, of the resolved directory or of one of
    its children: a system error's text (code, description, system call and
    path), the argument error of a path with a null byte, or the text of an
    invalid time. An absent query parameter is the empty path. *)
Theorem GET_response
    (localeCompare : string -> string -> Z) (fs : FileSystem)
    (query : option string) :
  let requestedPath := match query with Some p => p | None => EmptyString end in
  match snd (readDirectory localeCompare fs requestedPath) with
  | Returns snapshot =>
      GET localeCompare fs query
        = {| status := 200; body := JsonSnapshot snapshot |}
  | Throws e =>
      GET localeCompare fs query
        = {| status := 400; body := JsonError (message e) |}
      /\ match resolvePath requestedPath with
         | Throws _ =>
             message e = "Requested path is outside the allowed directory."
         | Returns resolved =>
             exists failure,
               e = ReadError failure
               /\ (readdir fs resolved = inl failure
                   \/ exists dirents d,
                        readdir fs resolved = inr dirents
                        /\ In d dirents
                        /\ stat fs (Path.join resolved (Dirent.name d))
                             = inl failure)
         end
  end
  /\ (forall s,
        message (ReadError (SystemFailure s))
        = sysCode s ++ ": " ++ sysText s ++ ", " ++ sysCall s
            ++ " '" ++ sysPath s ++ "'")
  /\ (forall reason received,
        message (ReadError (InvalidArgValue reason received))
        = "The argument 'path' " ++ reason ++ ". Received " ++ received)
  /\ message (ReadError InvalidTime) = "Invalid time value".
Proof.
  cbv zeta. split; [|repeat split].
  unfold GET.
  destruct (snd (readDirectory localeCompare fs _)) as [snapshot|e] eqn:H.
  - reflexivity.
  - split; [reflexivity|].
    pose proof (readDirectory_throws _ _ _ _ H) as Hwhere.
    destruct (resolvePath _); [exact Hwhere | now subst e].
Qed.

(** A path with a null byte: [fs.readdir] rejects the argument, and the
    handler passes the text on. *)
Lemma GET_null_byte :
  GET ordinalCompare emptyBase (Some (String Ascii.zero EmptyString))
  = {| status := 400;
       body := JsonError
         ("The argument 'path' must be a string, Uint8Array, or URL "
          ++ "without null bytes. Received '/dp-apps/\x00'") |}.
Proof. reflexivity. Qed.

(** ** Parent path *)

Lemma stripLeadingSlashes_cons c rest :
  Js.stripLeadingSlashes (String c rest) =
  if Ascii.eqb c "/" then Js.stripLeadingSlashes rest else String c rest.
Proof.
  destruct c as [[] [] [] [] [] [] [] []]; reflexivity.
Qed.

(** A request without a non-empty segment is made of separators only. *)
Lemma no_segments_strip requestedPath :
  filter Js.truthy (Js.split requestedPath) = [] ->
  Js.stripLeadingSlashes requestedPath = EmptyString.
Proof.
  induction requestedPath as [|c rest IH]; [reflexivity|].
  rewrite stripLeadingSlashes_cons. cbn [Js.split].
  destruct (Ascii.eqb c "/").
  - cbn [filter Js.truthy String.eqb negb]. exact IH.
  - destruct (Js.split rest); cbn; discriminate.
Qed.

Lemma no_segments_root requestedPath :
  filter Js.truthy (Js.split requestedPath) = [] ->
  resolvePath requestedPath = Returns BASE_DIRECTORY.
Proof.
  intros H. unfold resolvePath. now rewrite (no_segments_strip _ H).
Qed.

Lemma parentOf_snoc2 before up last :
  parentOf (before ++ [up; last])%list = Some (path up).
Proof.
  unfold parentOf. rewrite length_app. cbn [List.length].
  replace (Nat.ltb 1 (List.length before + 2)) with true
    by (symmetry; apply Nat.ltb_lt; lia).
  replace (List.length before + 2 - 2) with (List.length before) by lia.
  rewrite nth_error_app2, Nat.sub_diag by lia. reflexivity.
Qed.

Lemma parentOf_None crumbs :
  parentOf crumbs = None <-> List.length crumbs <= 1.
Proof.
  unfold parentOf.
  destruct (Nat.ltb 1 (List.length crumbs)) eqn:Hlen.
  - apply Nat.ltb_lt in Hlen.
    destruct (nth_error crumbs (List.length crumbs - 2)) eqn:Hnth.
    + cbn. split; [discriminate | lia].
    + apply nth_error_None in Hnth. lia.
  - apply Nat.ltb_ge in Hlen. tauto.
Qed.

Lemma split_last2 {A} (l : list A) :
  2 <= List.length l -> exists before up last, l = (before ++ [up; last])%list.
Proof.
  intros Hlen.
  destruct (exists_last (l := l)) as [l1 [last ->]];
    [destruct l; [cbn in Hlen; lia | discriminate]|].
  rewrite length_app in Hlen. cbn in Hlen.
  destruct (exists_last (l := l1)) as [before [up ->]];
    [destruct l1; [cbn in Hlen; lia | discriminate]|].
  exists before, up, last. now rewrite <- app_assoc.
Qed.

(** C4, as stated, fails: the request '.' resolves to the base directory
    itself, yet its snapshot has a parent path, the root crumb's. *)
Lemma parentPath_of_dot :
  exists snapshot,
    snd (readDirectory ordinalCompare emptyBase ".") = Returns snapshot
    /\ absolutePath snapshot = basePath snapshot
    /\ parentPath snapshot = Some EmptyString.
Proof.
  eexists. split; [vm_compute; reflexivity|]. split; reflexivity.
Qed.

(** C4, amended: in every snapshot, [parentPath] is null exactly when the
    raw requested path has no non-empty segment, and then the request
    resolved to the base directory itself; otherwise there are at least two
    breadcrumbs and [parentPath] is the path of the second-to-last one. For
    the empty request [parentPath] is null. *)
Theorem parentPath_spec
    (localeCompare : string -> string -> Z) (fs : FileSystem)
    (requestedPath : string) (snapshot : DirectorySnapshot) :
  snd (readDirectory localeCompare fs requestedPath) = Returns snapshot ->
  (parentPath snapshot = None
     <-> filter Js.truthy (Js.split requestedPath) = [])
  /\ (parentPath snapshot = None ->
        absolutePath snapshot = basePath snapshot)
  /\ (parentPath snapshot <> None ->
        exists before up last,
          breadcrumbs snapshot = (before ++ [up; last])%list)
  /\ (forall before up last,
        breadcrumbs snapshot = (before ++ [up; last])%list ->
        parentPath snapshot = Some (path up))
  /\ (requestedPath = EmptyString -> parentPath snapshot = None).
Proof.
  intros H.
  destruct (readDirectory_returns _ _ _ _ H)
    as [resolved [dirents [Hres [_ [_ ->]]]]].
  cbn [parentPath absolutePath basePath breadcrumbs assemble].
  assert (Hiff : parentOf (buildBreadcrumbs requestedPath) = None
                 <-> filter Js.truthy (Js.split requestedPath) = []).
  { rewrite parentOf_None.
    rewrite buildBreadcrumbs_length.
    destruct (filter Js.truthy (Js.split requestedPath)); cbn.
    - split; [reflexivity | lia].
    - split; [lia | discriminate]. }
  split; [exact Hiff|]. split; [|split; [|split]].
  - intros Hnone. apply Hiff in Hnone.
    rewrite (no_segments_root _ Hnone) in Hres. now injection Hres as <-.
  - intros Hsome. apply split_last2.
    destruct (Nat.le_gt_cases (List.length (buildBreadcrumbs requestedPath)) 1)
      as [Hle|Hgt]; [|lia].
    now apply parentOf_None in Hle.
  - intros before up last ->. apply parentOf_snoc2.
  - intros ->. reflexivity.
Qed.

Lemma parentPath_spec_witness :
  parentPath
    (assemble ordinalCompare "foo/bar" "/dp-apps/foo/bar" []) = Some "foo".
Proof.
  refine (proj1 (proj2 (proj2 (proj2
    (parentPath_spec ordinalCompare
       (tableFs [("/dp-apps/foo/bar", DirNode epoch [])]) "foo/bar"
       (assemble ordinalCompare "foo/bar" "/dp-apps/foo/bar" [])
       eq_refl))))
    [{| label := "dp-apps"; path := EmptyString |}]
    {| label := "foo"; path := "foo" |}
    {| label := "bar"; path := "foo/bar" |} eq_refl).
Defined.

(** ** Order of the entries *)

Lemma ordinalCompare_flip a b :
  Z.sgn (ordinalCompare b a) = (- Z.sgn (ordinalCompare a b))%Z.
Proof.
  unfold ordinalCompare. rewrite (String.compare_antisym a b).
  destruct (String.compare b a); reflexivity.
Qed.

Lemma ordinalCompare_trans a b c :
  (ordinalCompare a b <= 0)%Z -> (ordinalCompare b c <= 0)%Z ->
  (ordinalCompare a c <= 0)%Z.
Proof.
  unfold ordinalCompare.
  destruct (String.compare a b) eqn:Hab; try lia.
  - apply String.compare_eq_iff in Hab. now subst b.
  - destruct (String.compare b c) eqn:Hbc; try lia.
    + apply String.compare_eq_iff in Hbc. subst c. now rewrite Hab.
    + intros _ _.
      apply OrderedTypeEx.String_as_OT.cmp_lt in Hab, Hbc.
      pose proof (OrderedTypeEx.String_as_OT.lt_trans _ _ _ Hab Hbc) as Hac.
      apply OrderedTypeEx.String_as_OT.cmp_lt in Hac.
      unfold OrderedTypeEx.String_as_OT.cmp in Hac. rewrite Hac. lia.
Qed.

Lemma StronglySorted_weaken {A} (R R' : A -> A -> Prop) l :
  (forall a b, R a b -> R' a b) -> StronglySorted R l -> StronglySorted R' l.
Proof.
  intros Himp. induction 1 as [|x l Hl IH Hx]; constructor; [exact IH|].
  eapply Forall_impl; [|exact Hx]. auto.
Qed.

(** A list sorted by type first is its directories followed by its files. *)
Lemma sorted_directories_first l :
  StronglySorted
    (fun a b => (type a = directory /\ type b = file) \/ type a = type b) l ->
  exists dirs files,
    l = (dirs ++ files)%list
    /\ Forall (fun e => type e = directory) dirs
    /\ Forall (fun e => type e = file) files.
Proof.
  induction 1 as [|x l Hl [dirs [files [-> [Hd Hf]]]] Hx].
  - exists [], []. repeat split; constructor.
  - destruct (type x) eqn:Htype.
    + exists [], (x :: dirs ++ files)%list. repeat split; [constructor|].
      constructor; [exact Htype|].
      eapply Forall_impl; [|exact Hx].
      intros e [[Hdir _]|Hsame]; congruence.
    + exists (x :: dirs), files. repeat split; [|exact Hf].
      now constructor.
Qed.

Lemma fulfilled_step {A} (task : Task A) rest :
  fulfilled (task :: rest) =
  match snd (snd task) with
  | Returns a => a :: fulfilled rest
  | Throws _ => fulfilled rest
  end.
Proof.
  destruct task as [t [calls [a|e]]]; reflexivity.
Qed.

Lemma firstRejection_cons_None {A} (task : Task A) rest :
  firstRejection (task :: rest) = None <->
  (exists a, snd (snd task) = Returns a) /\ firstRejection rest = None.
Proof.
  rewrite !firstRejection_None. split.
  - intros H. now inversion H.
  - intros [H1 H2]. now constructor.
Qed.

(** The moments at which the stats settle do not matter to a request
    that succeeds. *)
Lemma listing_timing_irrelevant fs fs' absolutePath dirents :
  (forall p, stat fs' p = stat fs p) ->
  firstRejection (map (entryTask fs absolutePath) dirents) = None ->
  firstRejection (map (entryTask fs' absolutePath) dirents) = None
  /\ listedEntries fs' absolutePath dirents
     = listedEntries fs absolutePath dirents.
Proof.
  intros Hstat. unfold listedEntries.
  induction dirents as [|d ds IH]; cbn [map]; [now split|].
  rewrite !firstRejection_cons_None, !fulfilled_step, !entryTask_outcome.
  rewrite Hstat. intros [[a Ha] Hrest]. destruct (IH Hrest) as [IH1 IH2].
  split; [split; [now exists a | exact IH1]|].
  destruct (stat fs _); [discriminate | now rewrite IH2].
Qed.

Section EntriesOrder.
Variable localeCompare : string -> string -> Z.

(** The locale's comparison is a consistent comparator. *)
Hypothesis localeCompare_flip :
  forall a b, Z.sgn (localeCompare b a) = (- Z.sgn (localeCompare a b))%Z.
Hypothesis localeCompare_trans :
  forall a b c,
    (localeCompare a b <= 0)%Z -> (localeCompare b c <= 0)%Z ->
    (localeCompare a c <= 0)%Z.

(** C5: in every snapshot the entries are sorted: of any two entries the
    earlier one is a directory and the later one a file, or they have the
    same type and the earlier name does not come after the later one in the
    locale's order; so the entries are the directories followed by the
    files. The sort is stable (entries that tie with a given entry keep
    their listing order) and deterministic (the moments at which the stats
    of the children settle do not change the snapshot). Children listed as
    b.txt, A, a.txt, B, where A and B are the directories, come out as
    A, B, a.txt, b.txt. *)
Theorem entries_sorted (fs : FileSystem) (requestedPath : string)
    (snapshot : DirectorySnapshot) :
  snd (readDirectory localeCompare fs requestedPath) = Returns snapshot ->
  StronglySorted
    (fun a b =>
       (type a = directory /\ type b = file)
       \/ (type a = type b /\ (localeCompare (name a) (name b) <= 0)%Z))
    (entries snapshot)
  /\ (exists dirs files,
        entries snapshot = (dirs ++ files)%list
        /\ Forall (fun e => type e = directory) dirs
        /\ Forall (fun e => type e = file) files)
  /\ (exists dirents,
        readdir fs (absolutePath snapshot) = inr dirents
        /\ forall k,
             filter (fun e => (compareEntries localeCompare e k =? 0)%Z)
               (entries snapshot)
             = filter (fun e => (compareEntries localeCompare e k =? 0)%Z)
                 (listedEntries fs (absolutePath snapshot) dirents))
  /\ (forall fs',
        (forall p, readdir fs' p = readdir fs p) ->
        (forall p, stat fs' p = stat fs p) ->
        snd (readDirectory localeCompare fs' requestedPath) = Returns snapshot)
  /\ (readdir fs (absolutePath snapshot)
        = inr [{| Dirent.name := "b.txt"; Dirent.isDirectory := false |};
               {| Dirent.name := "A"; Dirent.isDirectory := true |};
               {| Dirent.name := "a.txt"; Dirent.isDirectory := false |};
               {| Dirent.name := "B"; Dirent.isDirectory := true |}] ->
      (localeCompare "A" "B" < 0)%Z ->
      (localeCompare "a.txt" "b.txt" < 0)%Z ->
      map name (entries snapshot) = ["A"; "B"; "a.txt"; "b.txt"]).
Proof.
  intros H.
  destruct (readDirectory_returns _ _ _ _ H)
    as [resolved [dirents [Hres [Hdir [Hrej ->]]]]].
  cbn [entries absolutePath assemble].
  pose proof (sort_sorted (compareEntries localeCompare)
                (compareEntries_flip _ localeCompare_flip)
                (compareEntries_trans _ localeCompare_trans)
                (fulfilled (map (entryTask fs resolved) dirents))) as Hsorted.
  apply (StronglySorted_weaken _
           (fun a b =>
              (type a = directory /\ type b = file)
              \/ (type a = type b
                  /\ (localeCompare (name a) (name b) <= 0)%Z)))
    in Hsorted; [|intros a b; apply compareEntries_le].
  split; [exact Hsorted|]. split; [|split; [|split]].
  - apply sorted_directories_first.
    eapply StronglySorted_weaken; [|exact Hsorted]. cbn. tauto.
  - exists dirents. split; [exact Hdir|]. intros k.
    apply (sort_stable (compareEntries localeCompare)
             (compareEntries_flip _ localeCompare_flip)
             (compareEntries_trans _ localeCompare_trans)).
  - intros fs' Hreaddir Hstat.
    rewrite readDirectory_unfold, Hres, Hreaddir, Hdir. cbv zeta. cbn [snd].
    destruct (listing_timing_irrelevant fs fs' resolved dirents Hstat Hrej)
      as [-> Hsame].
    unfold listedEntries in Hsame. now rewrite Hsame.
  - intros Hlist HAB Hab. rewrite Hdir in Hlist. injection Hlist as ->.
    pose proof (fulfilled_entries _ _ _ Hrej) as Hall.
    clear H Hsorted Hrej Hdir.
    remember (fulfilled (map (entryTask fs resolved) _)) as listed eqn:Hl.
    clear Hl.
    repeat match goal with
           | Hf : Forall2 _ (_ :: _) _ |- _ =>
               inversion Hf as [|? ? ? ? [? [_ ->]] ?]; subst; clear Hf
           | Hf : Forall2 _ [] _ |- _ => inversion Hf; subst; clear Hf
           end.
    pose proof (localeCompare_flip "a.txt" "b.txt") as Hflip.
    unfold sort. cbn [fold_right insertSorted].
    unfold compareEntries, entryOf; cbn.
    replace (localeCompare "A" "B" <=? 0)%Z with true
      by (symmetry; apply Z.leb_le; lia).
    cbn.
    replace (localeCompare "b.txt" "a.txt" <=? 0)%Z with false
      by (symmetry; apply Z.leb_gt; lia).
    reflexivity.
Qed.
End EntriesOrder.

Lemma entries_sorted_witness :
  map name
    (entries
       (assemble ordinalCompare EmptyString "/dp-apps"
          (listedEntries sampleTree "/dp-apps" sampleChildren)))
  = ["A"; "B"; "a.txt"; "b.txt"].
Proof.
  refine (proj2 (proj2 (proj2 (proj2
    (entries_sorted ordinalCompare ordinalCompare_flip ordinalCompare_trans
       sampleTree EmptyString _ eq_refl)))) eq_refl _ _);
  reflexivity.
Defined.

(** ** Failed and complete reads *)

Lemma Forall2_In_left {A B} (R : A -> B -> Prop) l l' x :
  Forall2 R l l' -> In x l -> exists y, In y l' /\ R x y.
Proof.
  induction 1 as [|a b l l' Hab _ IH]; intros Hin; [contradiction|].
  destruct Hin as [->|Hin].
  - exists b. split; [now left | exact Hab].
  - destruct (IH Hin) as [y [Hy HR]]. exists y. split; [now right | exact HR].
Qed.

(** C7: once the path is resolved, [readDirectory] fails with the read
    error of [readdir] when the directory cannot be listed (it does not
    exist, is not a directory, or may not be read), and with the read error
    of one of the children when some child's [stat] fails. It returns a
    snapshot only if every child was read, and then there are as many
    entries as children: nothing partial is returned. *)
Theorem read_failure_fails_whole
    (localeCompare : string -> string -> Z) (fs : FileSystem)
    (requestedPath resolved : string) :
  resolvePath requestedPath = Returns resolved ->
  (forall e,
     readdir fs resolved = inl e ->
     readDirectory localeCompare fs requestedPath
       = ([CallReaddir resolved], Throws (ReadError e)))
  /\ (forall dirents,
        readdir fs resolved = inr dirents ->
        Exists
          (fun d =>
             exists e, stat fs (Path.join resolved (Dirent.name d)) = inl e)
          dirents ->
        exists d e,
          In d dirents
          /\ stat fs (Path.join resolved (Dirent.name d)) = inl e
          /\ snd (readDirectory localeCompare fs requestedPath)
               = Throws (ReadError e))
  /\ (forall snapshot,
        snd (readDirectory localeCompare fs requestedPath)
          = Returns snapshot ->
        exists dirents,
          readdir fs resolved = inr dirents
          /\ Forall
               (fun d =>
                  exists stats,
                    stat fs (Path.join resolved (Dirent.name d)) = inr stats)
               dirents
          /\ List.length (entries snapshot) = List.length dirents).
Proof.
  intros Hres. split; [|split].
  - intros e Hdir. now rewrite readDirectory_unfold, Hres, Hdir.
  - intros dirents Hdir Hbad.
    rewrite readDirectory_unfold, Hres, Hdir. cbv zeta. cbn [snd].
    destruct (firstRejection (map (entryTask fs resolved) dirents))
      as [[t e']|] eqn:Hrej.
    + apply firstRejection_In in Hrej. destruct Hrej as [calls Hin].
      apply in_map_iff in Hin. destruct Hin as [d [Hd Hin]].
      pose proof (entryTask_outcome fs resolved d) as Hout.
      rewrite Hd in Hout. cbn [snd] in Hout.
      destruct (stat fs (Path.join resolved (Dirent.name d)))
        as [e|stats] eqn:Hstat; [|discriminate].
      injection Hout as ->. exists d, e. auto.
    + exfalso. apply fulfilled_entries in Hrej.
      apply Exists_exists in Hbad. destruct Hbad as [d [Hin [e He]]].
      destruct (Forall2_In_left _ _ _ _ Hrej Hin)
        as [entry [_ [stats [Hok _]]]].
      congruence.
  - intros snapshot H.
    destruct (readDirectory_returns _ _ _ _ H)
      as [resolved' [dirents [Hres' [Hdir [Hrej ->]]]]].
    rewrite Hres in Hres'. injection Hres' as <-.
    exists dirents. split; [exact Hdir|].
    apply fulfilled_entries in Hrej. split.
    + clear -Hrej.
      induction Hrej as [|d e ds es [stats [Hok _]] _ IH]; [constructor|].
      constructor; [now exists stats | exact IH].
    + cbn [entries assemble].
      rewrite <- (Permutation_length (sort_perm _ _)).
      symmetry. exact (Forall2_length Hrej).
Qed.

Lemma read_failure_fails_whole_witness :
  readDirectory ordinalCompare sampleTree "a.txt"
    = ([CallReaddir "/dp-apps/a.txt"],
       Throws (ReadError (ENOTDIR "scandir" "/dp-apps/a.txt"))).
Proof.
  exact (proj1 (read_failure_fails_whole ordinalCompare sampleTree
                  "a.txt" "/dp-apps/a.txt" eq_refl)
           (ENOTDIR "scandir" "/dp-apps/a.txt") eq_refl).
Defined.

(** The table file system refuses to list what is missing, what is a
    file, and what may not be read. *)
Lemma tableFs_readdir_refuses table p :
  hasNul p = false ->
  (lookup table p = None ->
     readdir (tableFs table) p = inl (ENOENT "scandir" p))
  /\ (forall size mtime, lookup table p = Some (FileNode size mtime) ->
        readdir (tableFs table) p = inl (ENOTDIR "scandir" p))
  /\ (forall mtime, lookup table p = Some (LockedDir mtime) ->
        readdir (tableFs table) p = inl (EACCES "scandir" p)).
Proof.
  intros Hnul. cbn. rewrite Hnul. repeat split; intros; now rewrite H.
Qed.

(** C10: a directory that exists and has no children is read
    successfully, and the snapshot has no entries. *)
Theorem empty_directory_snapshot
    (localeCompare : string -> string -> Z) (fs : FileSystem)
    (requestedPath resolved : string) :
  resolvePath requestedPath = Returns resolved ->
  readdir fs resolved = inr [] ->
  exists snapshot,
    readDirectory localeCompare fs requestedPath
      = ([CallReaddir resolved], Returns snapshot)
    /\ absolutePath snapshot = resolved
    /\ entries snapshot = [].
Proof.
  intros Hres Hdir. rewrite readDirectory_unfold, Hres, Hdir.
  eexists. split; [reflexivity|]. split; reflexivity.
Qed.

Lemma empty_directory_snapshot_witness :
  exists snapshot,
    readDirectory ordinalCompare sampleTree "A"
      = ([CallReaddir "/dp-apps/A"], Returns snapshot)
    /\ absolutePath snapshot = "/dp-apps/A"
    /\ entries snapshot = [].
Proof.
  exact (empty_directory_snapshot ordinalCompare sampleTree "A" "/dp-apps/A"
           eq_refl eq_refl).
Defined.

(** * More of the code *)

(** ** Splitting and joining *)

Lemma split_app_slash a b :
  Js.split (a ++ "/" ++ b) = (Js.split a ++ Js.split b)%list.
Proof.
  induction a as [|c a IH]; [reflexivity|].
  change (String c a ++ "/" ++ b) with (String c (a ++ "/" ++ b)).
  cbn [Js.split]. rewrite IH.
  destruct (Ascii.eqb c "/"); [reflexivity|].
  pose proof (split_not_nil a) as Hne.
  destruct (Js.split a) as [|seg segs]; [contradiction | reflexivity].
Qed.

Lemma split_slash_free s : hasSlash s = false -> Js.split s = [s].
Proof.
  induction s as [|c s IH]; [reflexivity|].
  cbn [hasSlash Js.split]. intros H.
  apply Bool.orb_false_iff in H. destruct H as [Hc Hs].
  now rewrite Hc, (IH Hs).
Qed.

(** Joining slash-free pieces and splitting again gives the pieces back. *)
Lemma split_join segs :
  segs <> [] -> Forall (fun seg => hasSlash seg = false) segs ->
  Js.split (Js.join segs) = segs.
Proof.
  induction segs as [|x rest IH]; [contradiction|].
  intros _ H. inversion H as [|? ? Hx Hrest]; subst.
  destruct rest as [|y rest]; [now apply split_slash_free|].
  change (Js.join (x :: y :: rest)) with (x ++ "/" ++ Js.join (y :: rest)).
  rewrite split_app_slash, (split_slash_free _ Hx), IH;
    [reflexivity | discriminate | assumption].
Qed.

Lemma plain_spec seg :
  plain seg = true <->
  seg <> EmptyString /\ seg <> "." /\ seg <> ".." /\ hasSlash seg = false.
Proof.
  unfold plain, Js.truthy.
  rewrite !Bool.andb_true_iff, !Bool.negb_true_iff, !String.eqb_neq. tauto.
Qed.

Lemma plain_truthy segs :
  Forall (fun seg => plain seg = true) segs ->
  Forall (fun seg => Js.truthy seg = true) segs.
Proof.
  apply Forall_impl. intros seg H. apply plain_spec in H.
  unfold Js.truthy. apply Bool.negb_true_iff, String.eqb_neq. tauto.
Qed.

Lemma plain_slash_free segs :
  Forall (fun seg => plain seg = true) segs ->
  Forall (fun seg => hasSlash seg = false) segs.
Proof.
  apply Forall_impl. intros seg H. apply plain_spec in H. tauto.
Qed.

Lemma filter_truthy_id segs :
  Forall (fun seg => Js.truthy seg = true) segs ->
  filter Js.truthy segs = segs.
Proof.
  induction 1 as [|x l Hx _ IH]; [reflexivity|].
  cbn. now rewrite Hx, IH.
Qed.

(** The non-empty segments of a string survive joining and splitting. *)
Lemma segments_of_join segs :
  Forall (fun seg => Js.truthy seg = true) segs ->
  Forall (fun seg => hasSlash seg = false) segs ->
  filter Js.truthy (Js.split (Js.join segs)) = segs.
Proof.
  intros Ht Hs. destruct segs as [|x rest]; [reflexivity|].
  rewrite split_join; [now apply filter_truthy_id | discriminate | assumption].
Qed.

Lemma segments_slash_free requestedPath :
  Forall (fun seg => hasSlash seg = false)
    (filter Js.truthy (Js.split requestedPath)).
Proof.
  apply Forall_forall. intros seg Hin. apply filter_In in Hin.
  pose proof (split_no_slash requestedPath) as H.
  rewrite Forall_forall in H. now apply H.
Qed.

Lemma segments_truthy requestedPath :
  Forall (fun seg => Js.truthy seg = true)
    (filter Js.truthy (Js.split requestedPath)).
Proof.
  apply Forall_forall. intros seg Hin. now apply filter_In in Hin.
Qed.

(** Dropping the leading separators drops empty segments only. *)
Lemma segments_strip requestedPath :
  filter Js.truthy (Js.split (Js.stripLeadingSlashes requestedPath))
  = filter Js.truthy (Js.split requestedPath).
Proof.
  induction requestedPath as [|c rest IH]; [reflexivity|].
  rewrite stripLeadingSlashes_cons.
  destruct (Ascii.eqb c "/") eqn:Hc; [|reflexivity].
  cbn [Js.split]. rewrite Hc. cbn. exact IH.
Qed.

Lemma strip_not_absolute requestedPath :
  Path.isAbsolute (Js.stripLeadingSlashes requestedPath) = false.
Proof.
  induction requestedPath as [|c rest IH]; [reflexivity|].
  rewrite stripLeadingSlashes_cons.
  destruct (Ascii.eqb c "/") eqn:Hc; [exact IH|].
  destruct c as [[] [] [] [] [] [] [] []]; try reflexivity; discriminate.
Qed.

(** ** Normalising segments *)

Lemma normalizeStep_empty above stack :
  Path.normalizeStep above stack EmptyString = stack.
Proof. reflexivity. Qed.

Lemma normalizeStep_plain above stack seg :
  plain seg = true -> Path.normalizeStep above stack seg = seg :: stack.
Proof.
  intros H. apply plain_spec in H. destruct H as [H1 [H2 [H3 _]]].
  unfold Path.normalizeStep.
  apply String.eqb_neq in H1, H2, H3. now rewrite H1, H2, H3.
Qed.

(** Empty segments do not matter to normalisation. *)
Lemma fold_normalize_truthy above segs : forall stack,
  fold_left (Path.normalizeStep above) (filter Js.truthy segs) stack
  = fold_left (Path.normalizeStep above) segs stack.
Proof.
  induction segs as [|seg segs IH]; intros stack; [reflexivity|].
  cbn [filter]. unfold Js.truthy at 1.
  destruct (String.eqb seg EmptyString) eqn:He; cbn [negb fold_left].
  - apply String.eqb_eq in He. subst seg. now rewrite normalizeStep_empty.
  - apply IH.
Qed.

Lemma normalizeSegments_truthy above segs :
  Path.normalizeSegments above (filter Js.truthy segs)
  = Path.normalizeSegments above segs.
Proof.
  unfold Path.normalizeSegments. now rewrite fold_normalize_truthy.
Qed.

Lemma fold_normalize_plain above segs : forall stack,
  Forall (fun seg => plain seg = true) segs ->
  fold_left (Path.normalizeStep above) segs stack = (rev segs ++ stack)%list.
Proof.
  induction segs as [|seg segs IH]; intros stack H; [reflexivity|].
  inversion H as [|? ? Hseg Hrest]; subst.
  cbn [fold_left rev]. rewrite normalizeStep_plain by assumption.
  rewrite IH by assumption. now rewrite <- app_assoc.
Qed.

(** Plain segments are already normal. *)
Lemma normalizeSegments_plain above segs :
  Forall (fun seg => plain seg = true) segs ->
  Path.normalizeSegments above segs = segs.
Proof.
  intros H. unfold Path.normalizeSegments.
  rewrite fold_normalize_plain by assumption.
  now rewrite app_nil_r, rev_involutive.
Qed.

(** Below the root, normalisation keeps only plain segments. *)
Lemma fold_normalize_keeps_plain segs : forall stack,
  Forall (fun seg => hasSlash seg = false) segs ->
  Forall (fun seg => plain seg = true) stack ->
  Forall (fun seg => plain seg = true)
    (fold_left (Path.normalizeStep false) segs stack).
Proof.
  induction segs as [|seg segs IH]; intros stack Hsegs Hstack; [exact Hstack|].
  inversion Hsegs as [|? ? Hseg Hrest]; subst.
  cbn [fold_left]. apply IH; [assumption|].
  unfold Path.normalizeStep.
  destruct (String.eqb seg EmptyString) eqn:H1; [exact Hstack|].
  destruct (String.eqb seg ".") eqn:H2; [exact Hstack|]. cbn [orb].
  destruct (String.eqb seg "..") eqn:H3.
  - destruct stack as [|top below]; [constructor|].
    inversion Hstack; subst.
    destruct (String.eqb top ".."); assumption.
  - constructor; [|exact Hstack].
    unfold plain, Js.truthy. now rewrite H1, H2, H3, Hseg.
Qed.

Lemma resolvedSegments_plain p :
  Forall (fun seg => plain seg = true) (Path.resolvedSegments p).
Proof.
  unfold Path.resolvedSegments, Path.normalizeSegments.
  apply Forall_rev. apply fold_normalize_keeps_plain;
    [apply split_no_slash | constructor].
Qed.

(** ** The resolver, segment by segment *)

(** What [resolvePath] hands to the containment check: the base
    directory's segment followed by the request's non-empty segments,
    normalised. *)
Lemma resolve_segments requestedPath :
  Path.resolve BASE_DIRECTORY (Js.stripLeadingSlashes requestedPath)
  = "/" ++ Js.join
             (Path.normalizeSegments false
                ("dp-apps" :: segmentsOf requestedPath)).
Proof.
  unfold Path.resolve, segmentsOf. rewrite strip_not_absolute.
  rewrite <- (segments_strip requestedPath).
  destruct (String.eqb (Js.stripLeadingSlashes requestedPath) EmptyString)
    eqn:He.
  - apply String.eqb_eq in He. rewrite He. reflexivity.
  - unfold Path.resolvedSegments.
    rewrite split_app_slash, <- normalizeSegments_truthy, filter_app.
    reflexivity.
Qed.

Lemma prefix_before_slash pat x rest :
  hasSlash pat = false ->
  String.prefix pat (x ++ "/" ++ rest) = String.prefix pat x.
Proof.
  revert x. induction pat as [|c pat IH]; intros x Hpat; [now destruct x|].
  cbn [hasSlash] in Hpat. apply Bool.orb_false_iff in Hpat.
  destruct Hpat as [Hc Hpat].
  destruct x as [|d x]; cbn.
  - destruct (ascii_dec c "/") as [->|_]; [discriminate | reflexivity].
  - destruct (ascii_dec c d); [now apply IH | reflexivity].
Qed.

(** The prefix test of the resolver looks at the first segment only. *)
Lemma startsWith_first_segment segs :
  Js.startsWith ("/" ++ Js.join segs) BASE_DIRECTORY
  = match segs with
    | first :: _ => String.prefix "dp-apps" first
    | [] => false
    end.
Proof.
  unfold Js.startsWith, BASE_DIRECTORY.
  change (String.prefix "/dp-apps" ("/" ++ Js.join segs))
    with (String.prefix "dp-apps" (Js.join segs)).
  destruct segs as [|first [|second rest]]; [reflexivity | reflexivity|].
  change (Js.join (first :: second :: rest))
    with (first ++ "/" ++ Js.join (second :: rest)).
  now apply prefix_before_slash.
Qed.

Lemma join_base segs :
  "/" ++ Js.join ("dp-apps" :: segs) = Js.join (BASE_DIRECTORY :: segs).
Proof. destruct segs; reflexivity. Qed.

Lemma resolved_request_plain requestedPath :
  Forall (fun seg => plain seg = true)
    (Path.normalizeSegments false ("dp-apps" :: segmentsOf requestedPath)).
Proof.
  unfold Path.normalizeSegments. apply Forall_rev.
  apply fold_normalize_keeps_plain; [|constructor].
  constructor; [reflexivity | apply segments_slash_free].
Qed.

Lemma resolvePath_by_segments requestedPath :
  resolvePath requestedPath
  = if match Path.normalizeSegments false
                ("dp-apps" :: segmentsOf requestedPath) with
       | first :: _ => String.prefix "dp-apps" first
       | [] => false
       end
    then Returns
           ("/" ++ Js.join
                     (Path.normalizeSegments false
                        ("dp-apps" :: segmentsOf requestedPath)))
    else Throws OutOfBoundsError.
Proof.
  unfold resolvePath. cbv zeta.
  rewrite resolve_segments, startsWith_first_segment.
  destruct (Path.normalizeSegments false _) as [|first rest];
    [reflexivity|].
  destruct (String.prefix "dp-apps" first); reflexivity.
Qed.

Lemma resolvePath_join_segments requestedPath :
  resolvePath (Js.join (segmentsOf requestedPath)) = resolvePath requestedPath.
Proof.
  unfold resolvePath. cbv zeta. rewrite !resolve_segments.
  unfold segmentsOf at 1 3.
  rewrite segments_of_join;
    [reflexivity | apply segments_truthy | apply segments_slash_free].
Qed.

Lemma resolvePath_plain_request requestedPath :
  Forall (fun seg => plain seg = true) (segmentsOf requestedPath) ->
  resolvePath requestedPath
    = Returns (Js.join (BASE_DIRECTORY :: segmentsOf requestedPath)).
Proof.
  intros Hplain. rewrite resolvePath_by_segments.
  rewrite normalizeSegments_plain by (constructor; [reflexivity|assumption]).
  cbn [String.prefix]. now rewrite join_base.
Qed.

Lemma resolvePath_join_plain segs :
  Forall (fun seg => plain seg = true) segs ->
  resolvePath (Js.join segs) = Returns (Js.join (BASE_DIRECTORY :: segs)).
Proof.
  intros Hplain.
  assert (Hsegs : segmentsOf (Js.join segs) = segs).
  { apply segments_of_join;
      [now apply plain_truthy | now apply plain_slash_free]. }
  rewrite resolvePath_plain_request; rewrite Hsegs; [reflexivity|assumption].
Qed.

(** X1: the resolver decided. The request's non-empty segments are put
    behind the base directory's and normalised; the outcome depends on the
    first segment of the result alone: when it begins with 'dp-apps' the
    resolver returns the normalised path, an absolute path of plain
    segments, and otherwise it throws the out-of-bounds error. *)
Theorem resolvePath_decides (requestedPath : string) :
  let resolved :=
    Path.normalizeSegments false ("dp-apps" :: segmentsOf requestedPath) in
  Forall (fun seg => plain seg = true) resolved
  /\ resolvePath requestedPath
     = if match resolved with
          | first :: _ => String.prefix "dp-apps" first
          | [] => false
          end
       then Returns ("/" ++ Js.join resolved)
       else Throws OutOfBoundsError.
Proof.
  cbv zeta. split.
  - apply resolved_request_plain.
  - apply resolvePath_by_segments.
Qed.

(** X2: separators that enclose no segment do not matter. A request
    resolves exactly as its non-empty segments joined by single
    separators do, which is the path of its last breadcrumb. *)
Theorem resolvePath_ignores_empty_segments (requestedPath : string) :
  resolvePath (Js.join (segmentsOf requestedPath)) = resolvePath requestedPath
  /\ resolvePath (path (last (buildBreadcrumbs requestedPath)
                          {| label := EmptyString; path := EmptyString |}))
     = resolvePath requestedPath.
Proof.
  pose proof (resolvePath_join_segments requestedPath) as Hjoin.
  split; [exact Hjoin|].
  rewrite buildBreadcrumbs_crumbsOfSegments. unfold crumbsOfSegments.
  fold (segmentsOf requestedPath).
  destruct (segmentsOf requestedPath) as [|seg segs] eqn:Hsegs.
  - cbn [List.length seq map last path]. exact Hjoin.
  - rewrite <- Hjoin.
    change (List.length (seg :: segs)) with (S (List.length segs)).
    rewrite seq_S, map_app. cbn [map Nat.add].
    set (crumbs := map _ (seq 0 (List.length segs))).
    change ({| label := Path.basename BASE_DIRECTORY; path := EmptyString |}
            :: (crumbs ++ _))%list
      with (({| label := Path.basename BASE_DIRECTORY; path := EmptyString |}
             :: crumbs) ++
            [{| label := nth (List.length segs) (seg :: segs) EmptyString;
                path := Js.join (firstn (S (List.length segs)) (seg :: segs))
             |}])%list.
    rewrite last_last. cbn [path].
    change (S (List.length segs)) with (List.length (seg :: segs)).
    now rewrite firstn_all.
Qed.

Lemma prefix_append a b : String.prefix a (a ++ b) = true.
Proof.
  induction a as [|c a IH]; cbn; [now destruct b|].
  destruct (ascii_dec c c); [exact IH | contradiction].
Qed.

Lemma withinBase_join_base segs :
  withinBase (Js.join (BASE_DIRECTORY :: segs)) = true.
Proof.
  destruct segs as [|seg segs]; [reflexivity|].
  unfold withinBase, Js.startsWith. apply Bool.orb_true_iff. right.
  change (Js.join (BASE_DIRECTORY :: seg :: segs))
    with ((BASE_DIRECTORY ++ "/") ++ Js.join (seg :: segs)).
  apply prefix_append.
Qed.

(** X3: a request whose non-empty segments are all plain (no '.' and no
    '..') is never refused: it resolves to the base directory followed by
    those segments, which lies within the base directory. *)
Theorem resolvePath_plain (requestedPath : string) :
  Forall (fun seg => plain seg = true) (segmentsOf requestedPath) ->
  resolvePath requestedPath
    = Returns (Js.join (BASE_DIRECTORY :: segmentsOf requestedPath))
  /\ withinBase (Js.join (BASE_DIRECTORY :: segmentsOf requestedPath)) = true.
Proof.
  intros Hplain. split.
  - now apply resolvePath_plain_request.
  - apply withinBase_join_base.
Qed.

Lemma resolvePath_plain_witness :
  resolvePath "/foo//bar/" = Returns (Js.join [BASE_DIRECTORY; "foo"; "bar"])
  /\ withinBase (Js.join [BASE_DIRECTORY; "foo"; "bar"]) = true.
Proof.
  apply (resolvePath_plain "/foo//bar/").
  repeat constructor.
Defined.

(** ** Where the navigation paths lead *)

Lemma Forall_firstn {A} (P : A -> Prop) n l :
  Forall P l -> Forall P (firstn n l).
Proof.
  intros H. revert n. induction H as [|x l Hx _ IH]; intros [|n]; cbn;
    constructor; auto.
Qed.

Lemma crumb_at requestedPath k crumb :
  nth_error (buildBreadcrumbs requestedPath) k = Some crumb ->
  k <= List.length (segmentsOf requestedPath)
  /\ path crumb = Js.join (firstn k (segmentsOf requestedPath))
  /\ label crumb
     = match k with
       | 0 => "dp-apps"
       | S i => nth i (segmentsOf requestedPath) EmptyString
       end.
Proof.
  rewrite buildBreadcrumbs_crumbsOfSegments. unfold crumbsOfSegments.
  fold (segmentsOf requestedPath).
  destruct k as [|i]; cbn [nth_error].
  - intros [= <-]. repeat split. lia.
  - rewrite nth_error_map, nth_error_seq.
    destruct (Nat.ltb i (List.length (segmentsOf requestedPath))) eqn:Hi;
      [|discriminate].
    apply Nat.ltb_lt in Hi. cbn [option_map Nat.add].
    intros [= <-]. repeat split. lia.
Qed.

(** X4: the breadcrumbs of a request with plain segments lead to its
    ancestors. The crumb at position k is labelled with the k-th segment
    (the root crumb with 'dp-apps'), and requesting its path resolves to the
    base directory followed by the first k segments; the last crumb leads to
    the requested directory itself. *)
Theorem breadcrumb_leads_to_ancestor
    (requestedPath : string) (k : nat) (crumb : Breadcrumb) :
  Forall (fun seg => plain seg = true) (segmentsOf requestedPath) ->
  nth_error (buildBreadcrumbs requestedPath) k = Some crumb ->
  label crumb
    = match k with
      | 0 => "dp-apps"
      | S i => nth i (segmentsOf requestedPath) EmptyString
      end
  /\ resolvePath (path crumb)
     = Returns (Js.join (BASE_DIRECTORY
                          :: firstn k (segmentsOf requestedPath)))
  /\ (k = List.length (segmentsOf requestedPath) ->
      resolvePath (path crumb) = resolvePath requestedPath).
Proof.
  intros Hplain Hnth.
  destruct (crumb_at _ _ _ Hnth) as [Hk [Hpath Hlabel]].
  split; [exact Hlabel|]. rewrite Hpath.
  split.
  - apply resolvePath_join_plain. now apply Forall_firstn.
  - intros ->. rewrite firstn_all. apply resolvePath_join_segments.
Qed.

Lemma breadcrumb_leads_to_ancestor_witness :
  label {| label := "foo"; path := "foo" |} = "foo"
  /\ resolvePath (path {| label := "foo"; path := "foo" |})
     = Returns (Js.join [BASE_DIRECTORY; "foo"])
  /\ (1 = List.length (segmentsOf "foo/bar") ->
      resolvePath (path {| label := "foo"; path := "foo" |})
      = resolvePath "foo/bar").
Proof.
  apply (breadcrumb_leads_to_ancestor "foo/bar" 1
           {| label := "foo"; path := "foo" |}).
  - repeat constructor.
  - reflexivity.
Defined.

(** X5: going up one level from a directory requested by plain segments
    leads to the directory that contains it: the snapshot's [parentPath],
    requested in turn, resolves to the snapshot's [absolutePath] without its
    last segment. *)
Theorem parentPath_leads_to_parent
    (localeCompare : string -> string -> Z) (fs : FileSystem)
    (requestedPath : string) (snapshot : DirectorySnapshot) :
  snd (readDirectory localeCompare fs requestedPath) = Returns snapshot ->
  Forall (fun seg => plain seg = true) (segmentsOf requestedPath) ->
  segmentsOf requestedPath <> [] ->
  absolutePath snapshot
    = Js.join (BASE_DIRECTORY :: segmentsOf requestedPath)
  /\ exists parent,
       parentPath snapshot = Some parent
       /\ resolvePath parent
          = Returns (Js.join (BASE_DIRECTORY
                               :: removelast (segmentsOf requestedPath))).
Proof.
  intros H Hplain Hne.
  destruct (readDirectory_returns _ _ _ _ H)
    as [resolved [dirents [Hres [_ [_ ->]]]]].
  cbn [absolutePath parentPath assemble].
  rewrite (resolvePath_plain_request _ Hplain) in Hres.
  injection Hres as <-. split; [reflexivity|].
  unfold parentOf. rewrite buildBreadcrumbs_length.
  fold (segmentsOf requestedPath).
  destruct (segmentsOf requestedPath) as [|seg segs] eqn:Hsegs;
    [contradiction|].
  cbn [List.length Nat.ltb Nat.leb].
  replace (S (S (List.length segs)) - 2) with (List.length segs) by lia.
  destruct (nth_error (buildBreadcrumbs requestedPath) (List.length segs))
    as [crumb|] eqn:Hnth.
  - exists (path crumb). split; [reflexivity|].
    destruct (crumb_at _ _ _ Hnth) as [_ [-> _]]. rewrite Hsegs.
    rewrite removelast_firstn_len. cbn [List.length pred].
    apply resolvePath_join_plain. apply Forall_firstn. exact Hplain.
  - apply nth_error_None in Hnth. rewrite buildBreadcrumbs_length in Hnth.
    fold (segmentsOf requestedPath) in Hnth. rewrite Hsegs in Hnth.
    cbn in Hnth. lia.
Qed.

Lemma parentPath_leads_to_parent_witness :
  absolutePath (assemble ordinalCompare "foo/bar" "/dp-apps/foo/bar" [])
    = Js.join (BASE_DIRECTORY :: segmentsOf "foo/bar")
  /\ exists parent,
       parentPath (assemble ordinalCompare "foo/bar" "/dp-apps/foo/bar" [])
         = Some parent
       /\ resolvePath parent
          = Returns (Js.join (BASE_DIRECTORY
                               :: removelast (segmentsOf "foo/bar"))).
Proof.
  apply (parentPath_leads_to_parent ordinalCompare
           (tableFs [("/dp-apps/foo/bar", DirNode epoch [])]) "foo/bar").
  - reflexivity.
  - repeat constructor.
  - discriminate.
Defined.

(** ** Entering a listed child *)

Lemma string_app_nil_r (s : string) : s ++ EmptyString = s.
Proof.
  induction s as [|c s IH]; cbn; [reflexivity | now rewrite IH].
Qed.

Lemma endsWithSlash_app a b :
  b <> EmptyString -> Path.endsWithSlash (a ++ b) = Path.endsWithSlash b.
Proof.
  intros Hb. induction a as [|c a IH]; [reflexivity|].
  change (String c a ++ b) with (String c (a ++ b)).
  cbn [Path.endsWithSlash]. rewrite IH.
  destruct (a ++ b) eqn:Hab; [|reflexivity].
  destruct a; [cbn in Hab; contradiction | discriminate].
Qed.

Lemma endsWithSlash_slash_free s :
  hasSlash s = false -> Path.endsWithSlash s = false.
Proof.
  induction s as [|c s IH]; [reflexivity|].
  cbn [hasSlash Path.endsWithSlash]. intros H.
  apply Bool.orb_false_iff in H. destruct H as [Hc Hs].
  destruct s; [exact Hc | now apply IH].
Qed.

Lemma prefix_exists a s :
  String.prefix a s = true -> exists rest, s = a ++ rest.
Proof.
  revert s. induction a as [|c a IH]; intros s H; [now exists s|].
  destruct s as [|d s]; cbn in H; [discriminate|].
  destruct (ascii_dec c d) as [->|]; [|discriminate].
  destruct (IH _ H) as [rest ->]. now exists rest.
Qed.

(** A normalised path within the base directory starts with its segment. *)
Lemma withinBase_first_segment segs :
  Forall (fun seg => plain seg = true) segs ->
  withinBase ("/" ++ Js.join segs) = true ->
  exists below, segs = "dp-apps" :: below.
Proof.
  intros Hplain H.
  assert (Hne : segs <> []) by (intros ->; discriminate).
  pose proof (split_join segs Hne (plain_slash_free _ Hplain)) as Hsplit.
  unfold withinBase, Js.startsWith in H.
  apply Bool.orb_true_iff in H. destruct H as [H|H].
  - apply String.eqb_eq in H. injection H as H.
    rewrite H in Hsplit. exists []. now rewrite <- Hsplit.
  - change (String.prefix (BASE_DIRECTORY ++ "/") ("/" ++ Js.join segs))
      with (String.prefix "dp-apps/" (Js.join segs)) in H.
    apply prefix_exists in H. destruct H as [rest Hrest].
    rewrite Hrest in Hsplit.
    change ("dp-apps/" ++ rest) with ("dp-apps" ++ "/" ++ rest) in Hsplit.
    rewrite split_app_slash in Hsplit.
    exists (Js.split rest). now rewrite <- Hsplit.
Qed.

(** [path.join] of a normalised absolute path and a plain name appends the
    name as one more segment. *)
Lemma join_child segs child :
  segs <> [] -> Forall (fun seg => plain seg = true) segs ->
  plain child = true ->
  Path.join ("/" ++ Js.join segs) child
  = "/" ++ Js.join (segs ++ [child])%list.
Proof.
  intros Hne Hplain Hchild.
  pose proof Hchild as Hc. apply plain_spec in Hc.
  destruct Hc as [Hc1 [_ [_ Hc4]]].
  assert (Hall : Forall (fun seg => plain seg = true) (segs ++ [child])%list)
    by (apply Forall_app; split; [assumption | now constructor]).
  unfold Path.join.
  change (String.eqb ("/" ++ Js.join segs) EmptyString) with false.
  apply String.eqb_neq in Hc1. rewrite Hc1. cbv iota.
  unfold Path.normalize.
  change (String.eqb (("/" ++ Js.join segs) ++ "/" ++ child) EmptyString)
    with false.
  change (Path.isAbsolute (("/" ++ Js.join segs) ++ "/" ++ child)) with true.
  cbv iota zeta. cbn [negb].
  rewrite split_app_slash.
  change (Js.split ("/" ++ Js.join segs))
    with (EmptyString :: Js.split (Js.join segs)).
  rewrite (split_join segs Hne (plain_slash_free _ Hplain)).
  rewrite (split_slash_free _ Hc4).
  change (Path.normalizeSegments false ((EmptyString :: segs) ++ [child])%list)
    with (Path.normalizeSegments false (segs ++ [child])%list).
  rewrite (normalizeSegments_plain _ _ Hall).
  assert (Htruthy : Js.truthy (Js.join (segs ++ [child])%list) = true).
  { apply truthy_join; [|now apply plain_truthy].
    destruct segs; discriminate. }
  unfold Js.truthy in Htruthy. apply Bool.negb_true_iff in Htruthy.
  rewrite Htruthy.
  rewrite <- (string_app_assoc ("/" ++ Js.join segs) "/" child).
  rewrite endsWithSlash_app by (now apply String.eqb_neq).
  rewrite (endsWithSlash_slash_free _ Hc4). now rewrite string_app_nil_r.
Qed.

(** [path.relative] from the base directory to a normalised path below it
    is that path without the base directory's segment. *)
Lemma relative_below_base below :
  below <> [] -> Forall (fun seg => plain seg = true) below ->
  Path.relative BASE_DIRECTORY ("/" ++ Js.join ("dp-apps" :: below))
  = Js.join below.
Proof.
  intros Hne Hplain.
  assert (Hall : Forall (fun seg => plain seg = true) ("dp-apps" :: below))
    by (constructor; [reflexivity | assumption]).
  unfold Path.relative.
  replace (String.eqb BASE_DIRECTORY ("/" ++ Js.join ("dp-apps" :: below)))
    with false by (destruct below; [contradiction | reflexivity]).
  unfold Path.resolvedSegments at 2.
  change (Js.split ("/" ++ Js.join ("dp-apps" :: below)))
    with (EmptyString :: Js.split (Js.join ("dp-apps" :: below))).
  rewrite split_join; [|discriminate | now apply plain_slash_free].
  change (Path.normalizeSegments false (EmptyString :: "dp-apps" :: below))
    with (Path.normalizeSegments false ("dp-apps" :: below)).
  rewrite (normalizeSegments_plain _ _ Hall).
  reflexivity.
Qed.

Lemma Forall2_In_right {A B} (R : A -> B -> Prop) l l' y :
  Forall2 R l l' -> In y l' -> exists x, In x l /\ R x y.
Proof.
  induction 1 as [|a b l l' Hab _ IH]; intros Hin; [contradiction|].
  destruct Hin as [->|Hin].
  - exists a. split; [now left | exact Hab].
  - destruct (IH Hin) as [x [Hx HR]]. exists x. split; [now right | exact HR].
Qed.

(** X6: entering a listed child. In a snapshot of a directory within the
    base directory, the [relativePath] of an entry with a plain name is the
    child's path below the base directory, and requesting it resolves to
    the child: the snapshot's [absolutePath], a separator, and the entry's
    name. *)
Theorem relativePath_leads_to_child
    (localeCompare : string -> string -> Z) (fs : FileSystem)
    (requestedPath : string) (snapshot : DirectorySnapshot)
    (entry : DirectoryEntry) :
  snd (readDirectory localeCompare fs requestedPath) = Returns snapshot ->
  withinBase (absolutePath snapshot) = true ->
  In entry (entries snapshot) ->
  plain (name entry) = true ->
  BASE_DIRECTORY ++ "/" ++ relativePath entry
    = absolutePath snapshot ++ "/" ++ name entry
  /\ resolvePath (relativePath entry)
     = Returns (absolutePath snapshot ++ "/" ++ name entry)
  /\ withinBase (absolutePath snapshot ++ "/" ++ name entry) = true.
Proof.
  intros H Hwithin Hin Hname.
  destruct (readDirectory_returns _ _ _ _ H)
    as [resolved [dirents [Hres [_ [Hrej ->]]]]].
  cbn [absolutePath entries assemble] in *.
  apply (Permutation_in _ (Permutation_sym (sort_perm _ _))) in Hin.
  destruct (Forall2_In_right _ _ _ _ (fulfilled_entries _ _ _ Hrej) Hin)
    as [dirent [_ [stats [_ ->]]]].
  cbn [name relativePath entryOf] in *.
  rewrite resolvePath_by_segments in Hres.
  pose proof (resolved_request_plain requestedPath) as Hplain.
  destruct (Path.normalizeSegments false _) as [|first rest] eqn:Hnorm;
    [discriminate|].
  destruct (String.prefix "dp-apps" first); [|discriminate].
  assert (Hresolved : resolved = "/" ++ Js.join (first :: rest))
    by congruence.
  clear Hres. subst resolved.
  destruct (withinBase_first_segment _ Hplain Hwithin) as [below Hfirst].
  rewrite Hfirst in *. clear Hfirst H Hin Hrej Hwithin.
  assert (Hbelow : Forall (fun seg => plain seg = true)
                     (below ++ [Dirent.name dirent])%list).
  { apply Forall_app. split; [now inversion Hplain | now constructor]. }
  rewrite join_child by (try discriminate; assumption).
  change (("dp-apps" :: below) ++ [Dirent.name dirent])%list
    with ("dp-apps" :: (below ++ [Dirent.name dirent]))%list.
  rewrite relative_below_base by (try assumption; destruct below; discriminate).
  assert (Hchild : "/" ++ Js.join ("dp-apps" :: below) ++ "/"
                     ++ Dirent.name dirent
                   = Js.join (BASE_DIRECTORY
                                :: (below ++ [Dirent.name dirent])%list)).
  { rewrite <- join_base.
    change ("dp-apps" :: (below ++ [Dirent.name dirent]))%list
      with (("dp-apps" :: below) ++ [Dirent.name dirent])%list.
    now rewrite join_snoc. }
  change (("/" ++ Js.join ("dp-apps" :: below)) ++ "/" ++ Dirent.name dirent)
    with ("/" ++ Js.join ("dp-apps" :: below) ++ "/" ++ Dirent.name dirent).
  rewrite Hchild. split; [|split].
  - destruct (below ++ [Dirent.name dirent])%list eqn:Hl; [|reflexivity].
    destruct below; discriminate.
  - now apply resolvePath_join_plain.
  - apply withinBase_join_base.
Qed.

Lemma relativePath_leads_to_child_witness :
  BASE_DIRECTORY ++ "/" ++ "A" = "/dp-apps" ++ "/" ++ "A"
  /\ resolvePath "A" = Returns ("/dp-apps" ++ "/" ++ "A")
  /\ withinBase ("/dp-apps" ++ "/" ++ "A") = true.
Proof.
  apply (relativePath_leads_to_child ordinalCompare sampleTree EmptyString
           (assemble ordinalCompare EmptyString "/dp-apps"
              (listedEntries sampleTree "/dp-apps" sampleChildren))
           {| name := "A"; relativePath := "A"; type := directory;
              size := 4096; modified := epoch |}).
  - reflexivity.
  - reflexivity.
  - vm_compute. left. reflexivity.
  - reflexivity.
Defined.

(** ** The file-system calls of a request *)

Lemma join_child_resolved requestedPath resolved child :
  resolvePath requestedPath = Returns resolved ->
  plain child = true ->
  Path.join resolved child = resolved ++ "/" ++ child.
Proof.
  intros Hres Hchild. rewrite resolvePath_by_segments in Hres.
  pose proof (resolved_request_plain requestedPath) as Hplain.
  destruct (Path.normalizeSegments false _) as [|first rest];
    [discriminate|].
  destruct (String.prefix "dp-apps" first); [|discriminate].
  assert (Hresolved : resolved = "/" ++ Js.join (first :: rest))
    by congruence.
  subst resolved.
  rewrite join_child by (try discriminate; assumption).
  now rewrite join_snoc.
Qed.

(** ** The entries and the children *)

(** [path.relative] from the base directory to a normalised path beside
    it climbs out of the base directory first. *)
Lemma relative_beside_base first rest :
  String.eqb "dp-apps" first = false ->
  Forall (fun seg => plain seg = true) (first :: rest) ->
  Path.relative BASE_DIRECTORY ("/" ++ Js.join (first :: rest))
  = Js.join (".." :: first :: rest).
Proof.
  intros Hfirst Hplain.
  unfold Path.relative.
  replace (String.eqb BASE_DIRECTORY ("/" ++ Js.join (first :: rest)))
    with false.
  - unfold Path.resolvedSegments at 2.
    change (Js.split ("/" ++ Js.join (first :: rest)))
      with (EmptyString :: Js.split (Js.join (first :: rest))).
    rewrite split_join; [|discriminate | now apply plain_slash_free].
    change (Path.normalizeSegments false (EmptyString :: first :: rest))
      with (Path.normalizeSegments false (first :: rest)).
    rewrite (normalizeSegments_plain _ _ Hplain).
    change (Path.resolvedSegments BASE_DIRECTORY) with ["dp-apps"].
    cbn [Path.dropCommon]. rewrite Hfirst. reflexivity.
  - symmetry. apply String.eqb_neq. intros H.
    change (String "/" "dp-apps" = String "/" (Js.join (first :: rest))) in H.
    assert (Hjoin : "dp-apps" = Js.join (first :: rest)) by congruence.
    assert (Hsplit : Js.split (Js.join (first :: rest)) = first :: rest)
      by (apply split_join; [discriminate | now apply plain_slash_free]).
    rewrite <- Hjoin in Hsplit. vm_compute in Hsplit.
    injection Hsplit as Hf _.
    apply String.eqb_neq in Hfirst. now apply Hfirst.
Qed.

Lemma resolvePath_climbing segs first rest :
  segs = first :: rest ->
  Forall (fun seg => plain seg = true) segs ->
  String.prefix "dp-apps" first = true ->
  resolvePath (Js.join (".." :: segs)) = Returns ("/" ++ Js.join segs).
Proof.
  intros Hsegs Hplain Hprefix.
  rewrite resolvePath_by_segments.
  assert (Hof : segmentsOf (Js.join (".." :: segs)) = ".." :: segs).
  { apply segments_of_join.
    - constructor; [reflexivity | now apply plain_truthy].
    - constructor; [reflexivity | now apply plain_slash_free]. }
  rewrite Hof.
  assert (Hnorm : Path.normalizeSegments false ("dp-apps" :: ".." :: segs)
                  = segs).
  { unfold Path.normalizeSegments. cbn [fold_left].
    change (Path.normalizeStep false
              (Path.normalizeStep false [] "dp-apps") "..")
      with (@nil string).
    rewrite fold_normalize_plain by assumption.
    now rewrite app_nil_r, rev_involutive. }
  rewrite Hnorm, Hsegs, Hprefix. reflexivity.
Qed.

(** The [relativePath] the callback computes for a child with a plain
    name of a directory the resolver returned. *)
Lemma child_relativePath requestedPath resolved child :
  resolvePath requestedPath = Returns resolved ->
  plain child = true ->
  resolvePath (Path.relative BASE_DIRECTORY (Path.join resolved child))
    = Returns (resolved ++ "/" ++ child)
  /\ (withinBase resolved = true ->
      BASE_DIRECTORY ++ "/"
        ++ Path.relative BASE_DIRECTORY (Path.join resolved child)
      = resolved ++ "/" ++ child)
  /\ (withinBase resolved = false ->
      Path.relative BASE_DIRECTORY (Path.join resolved child)
      = ".." ++ resolved ++ "/" ++ child).
Proof.
  intros Hres Hchild.
  rewrite (join_child_resolved _ _ _ Hres Hchild).
  rewrite resolvePath_by_segments in Hres.
  pose proof (resolved_request_plain requestedPath) as Hplain.
  destruct (Path.normalizeSegments false _) as [|first rest];
    [discriminate|].
  destruct (String.prefix "dp-apps" first) eqn:Hprefix; [|discriminate].
  assert (Hresolved : resolved = "/" ++ Js.join (first :: rest))
    by congruence.
  clear Hres. subst resolved.
  assert (Hall : Forall (fun seg => plain seg = true)
                   ((first :: rest) ++ [child])%list)
    by (apply Forall_app; split; [assumption | now constructor]).
  assert (Hpath : ("/" ++ Js.join (first :: rest)) ++ "/" ++ child
                  = "/" ++ Js.join ((first :: rest) ++ [child])%list)
    by now rewrite join_snoc.
  rewrite Hpath.
  destruct (String.eqb "dp-apps" first) eqn:Hfirst.
  - apply String.eqb_eq in Hfirst. subst first.
    change (("dp-apps" :: rest) ++ [child])%list
      with ("dp-apps" :: (rest ++ [child]))%list in *.
    assert (Hbelow : Forall (fun seg => plain seg = true)
                       (rest ++ [child])%list) by now inversion Hall.
    rewrite relative_below_base
      by (try assumption; destruct rest; discriminate).
    rewrite join_base. split; [|split].
    + now apply resolvePath_join_plain.
    + intros _. destruct (rest ++ [child])%list eqn:Hl; [|reflexivity].
      destruct rest; discriminate.
    + intros Hout. rewrite join_base, withinBase_join_base in Hout.
      discriminate.
  - change ((first :: rest) ++ [child])%list
      with (first :: (rest ++ [child]))%list in *.
    rewrite (relative_beside_base _ _ Hfirst Hall).
    split; [|split].
    + now apply (resolvePath_climbing _ first (rest ++ [child])%list).
    + intros Hin.
      destruct (withinBase_first_segment _ Hplain Hin) as [below Hbelow].
      injection Hbelow as Hb _. apply String.eqb_neq in Hfirst.
      now symmetry in Hb.
    + intros _.
      change (Js.join (".." :: first :: (rest ++ [child])%list))
        with (".." ++ "/" ++ Js.join (first :: (rest ++ [child])%list)).
      reflexivity.
Qed.

(** C9: the entries of a snapshot are a permutation of the entries built
    from the children of the resolved directory, one per child in listing
    order, each with the child's name, the child's path relative to the
    base directory, and the type 'directory' for a directory and 'file' for
    anything else. The relative path of an entry with a plain name is the
    child's path as seen from the base directory: requesting it resolves to
    the child (the snapshot's [absolutePath], a separator, the name); put
    behind the base directory and a separator it is the child's path when
    the snapshot's directory lies within the base directory, and otherwise
    it is '..' followed by the child's path. *)
Theorem entries_are_children
    (localeCompare : string -> string -> Z) (fs : FileSystem)
    (requestedPath : string) (snapshot : DirectorySnapshot) :
  snd (readDirectory localeCompare fs requestedPath) = Returns snapshot ->
  (exists dirents listed,
     readdir fs (absolutePath snapshot) = inr dirents
     /\ Forall2
          (fun d e =>
             name e = Dirent.name d
             /\ relativePath e =
                  Path.relative BASE_DIRECTORY
                    (Path.join (absolutePath snapshot) (Dirent.name d))
             /\ type e = (if Dirent.isDirectory d then directory else file))
          dirents listed
     /\ Permutation listed (entries snapshot))
  /\ (forall entry,
        In entry (entries snapshot) ->
        plain (name entry) = true ->
        resolvePath (relativePath entry)
          = Returns (absolutePath snapshot ++ "/" ++ name entry)
        /\ (withinBase (absolutePath snapshot) = true ->
            BASE_DIRECTORY ++ "/" ++ relativePath entry
            = absolutePath snapshot ++ "/" ++ name entry)
        /\ (withinBase (absolutePath snapshot) = false ->
            relativePath entry
            = ".." ++ absolutePath snapshot ++ "/" ++ name entry)).
Proof.
  intros H.
  destruct (readDirectory_returns _ _ _ _ H)
    as [resolved [dirents [Hres [Hdir [Hrej ->]]]]].
  cbn [entries absolutePath assemble].
  pose proof (fulfilled_entries _ _ _ Hrej) as Hall.
  split.
  - exists dirents, (listedEntries fs resolved dirents).
    split; [exact Hdir|]. split; [|apply sort_perm].
    unfold listedEntries.
    eapply Forall2_impl; [|exact Hall].
    intros d e [stats [_ ->]]. repeat split.
  - intros entry Hin Hname.
    apply (Permutation_in _ (Permutation_sym (sort_perm _ _))) in Hin.
    destruct (Forall2_In_right _ _ _ _ Hall Hin)
      as [dirent [_ [stats [_ ->]]]].
    cbn [name relativePath entryOf] in *.
    now apply (child_relativePath requestedPath).
Qed.

Lemma entries_are_children_witness :
  resolvePath "../dp-apps-evil/secret"
    = Returns ("/dp-apps-evil" ++ "/" ++ "secret")
  /\ (withinBase "/dp-apps-evil" = true ->
      BASE_DIRECTORY ++ "/" ++ "../dp-apps-evil/secret"
      = "/dp-apps-evil" ++ "/" ++ "secret")
  /\ (withinBase "/dp-apps-evil" = false ->
      "../dp-apps-evil/secret" = ".." ++ "/dp-apps-evil" ++ "/" ++ "secret").
Proof.
  apply (proj2 (entries_are_children ordinalCompare sampleTree
                  "../dp-apps-evil"
                  (assemble ordinalCompare "../dp-apps-evil" "/dp-apps-evil"
                     (listedEntries sampleTree "/dp-apps-evil"
                        [{| Dirent.name := "secret";
                            Dirent.isDirectory := false |}]))
                  eq_refl)
           {| name := "secret"; relativePath := "../dp-apps-evil/secret";
              type := file; size := 42; modified := epoch |}).
  - left. reflexivity.
  - reflexivity.
Defined.

(** X7: a request reads one level. Once the path is resolved,
    [readDirectory] calls [readdir] on it; if the listing fails that is its
    only call, and otherwise it calls [stat] once per listed child, in
    listing order, on the resolved path followed by the child's name,
    whether or not those calls succeed. *)
Theorem readDirectory_calls
    (localeCompare : string -> string -> Z) (fs : FileSystem)
    (requestedPath resolved : string) :
  resolvePath requestedPath = Returns resolved ->
  (forall e,
     readdir fs resolved = inl e ->
     fst (readDirectory localeCompare fs requestedPath)
       = [CallReaddir resolved])
  /\ (forall dirents,
        readdir fs resolved = inr dirents ->
        Forall (fun d => plain (Dirent.name d) = true) dirents ->
        fst (readDirectory localeCompare fs requestedPath)
          = CallReaddir resolved
            :: map (fun d => CallStat (resolved ++ "/" ++ Dirent.name d))
                 dirents).
Proof.
  intros Hres. split.
  - intros e Hdir. now rewrite readDirectory_unfold, Hres, Hdir.
  - intros dirents Hdir Hplain.
    rewrite readDirectory_unfold, Hres, Hdir. cbv zeta. cbn [fst].
    f_equal. apply map_ext_in. intros d Hin. unfold statCall.
    rewrite Forall_forall in Hplain.
    now rewrite (join_child_resolved _ _ _ Hres (Hplain d Hin)).
Qed.

Lemma readDirectory_calls_witness :
  fst (readDirectory ordinalCompare sampleTree EmptyString)
    = CallReaddir "/dp-apps"
      :: map (fun d => CallStat ("/dp-apps" ++ "/" ++ Dirent.name d))
           sampleChildren.
Proof.
  apply (proj2 (readDirectory_calls ordinalCompare sampleTree
                  EmptyString "/dp-apps" eq_refl)).
  - reflexivity.
  - repeat constructor.
Defined.

(** ** The listing order does not matter *)

(** Two sorted arrangements of the same elements are equal when no two
    distinct elements tie. *)
Lemma sorted_arrangement_unique {A} (compare : A -> A -> Z) l1 : forall l2,
  StronglySorted (fun a b => (compare a b <= 0)%Z) l1 ->
  StronglySorted (fun a b => (compare a b <= 0)%Z) l2 ->
  Permutation l1 l2 ->
  (forall a b, In a l1 -> In b l1 ->
               (compare a b <= 0)%Z -> (compare b a <= 0)%Z -> a = b) ->
  l1 = l2.
Proof.
  induction l1 as [|x l1 IH]; intros l2 H1 H2 Hperm Hanti.
  - apply Permutation_nil in Hperm. now subst.
  - destruct l2 as [|y l2];
      [apply Permutation_sym, Permutation_nil in Hperm; discriminate|].
    inversion H1 as [|? ? Hs1 Hx]; subst.
    inversion H2 as [|? ? Hs2 Hy]; subst.
    assert (Hxy : x = y).
    { pose proof (Permutation_in _ (Permutation_sym Hperm)
                    (in_eq y l2)) as Hyin.
      pose proof (Permutation_in _ Hperm (in_eq x l1)) as Hxin.
      destruct Hyin as [->|Hyin]; [reflexivity|].
      destruct Hxin as [<-|Hxin]; [reflexivity|].
      rewrite Forall_forall in Hx, Hy.
      apply Hanti; [now left | now right | now apply Hx | now apply Hy]. }
    subst y. f_equal. apply IH; try assumption.
    + now apply Permutation_cons_inv in Hperm.
    + intros a b Ha Hb. apply Hanti; now right.
Qed.

Lemma listedEntries_permutation fs resolved dirents dirents' :
  Permutation dirents dirents' ->
  firstRejection (map (entryTask fs resolved) dirents) = None ->
  firstRejection (map (entryTask fs resolved) dirents') = None
  /\ Permutation (listedEntries fs resolved dirents)
       (listedEntries fs resolved dirents').
Proof.
  unfold listedEntries.
  induction 1 as [|d l l' _ IH|d d' l|l l' l'' _ IH1 _ IH2]; cbn [map].
  - now split.
  - rewrite !firstRejection_cons_None, !fulfilled_step.
    intros [[a Ha] Hrest]. destruct (IH Hrest) as [IHa IHb].
    split; [split; [now exists a | exact IHa]|].
    rewrite Ha. now constructor.
  - rewrite !firstRejection_cons_None, !fulfilled_step.
    intros [[a Ha] [[b Hb] Hrest]].
    split; [repeat split; [now exists b | now exists a | exact Hrest]|].
    rewrite Ha, Hb. apply perm_swap.
  - intros H. destruct (IH1 H) as [H' Hp]. destruct (IH2 H') as [H'' Hp'].
    split; [exact H'' | now transitivity (fulfilled (map (entryTask fs resolved) l'))].
Qed.

Lemma same_name_same_dirent (dirents : list Dirent.t) d1 d2 :
  NoDup (map Dirent.name dirents) ->
  In d1 dirents -> In d2 dirents ->
  Dirent.name d1 = Dirent.name d2 -> d1 = d2.
Proof.
  induction dirents as [|d ds IH]; intros Hnd H1 H2 Hname; [contradiction|].
  cbn [map] in Hnd. inversion Hnd as [|? ? Hnotin Hnd']; subst.
  destruct H1 as [->|H1], H2 as [->|H2].
  - reflexivity.
  - exfalso. apply Hnotin. rewrite Hname. now apply in_map.
  - exfalso. apply Hnotin. rewrite <- Hname. now apply in_map.
  - now apply IH.
Qed.

Section ListingOrder.
Variable localeCompare : string -> string -> Z.
Hypothesis localeCompare_flip :
  forall a b, Z.sgn (localeCompare b a) = (- Z.sgn (localeCompare a b))%Z.
Hypothesis localeCompare_trans :
  forall a b c,
    (localeCompare a b <= 0)%Z -> (localeCompare b c <= 0)%Z ->
    (localeCompare a c <= 0)%Z.

(** X8: the order in which the directory is listed does not show. If the
    children have distinct names, no two of which tie in the locale's
    order, then a file system that lists the same children in another
    order, with the same stats, yields the very same snapshot. *)
Theorem listing_order_irrelevant (fs fs' : FileSystem)
    (requestedPath : string) (snapshot : DirectorySnapshot)
    (dirents dirents' : list Dirent.t) :
  snd (readDirectory localeCompare fs requestedPath) = Returns snapshot ->
  readdir fs (absolutePath snapshot) = inr dirents ->
  readdir fs' (absolutePath snapshot) = inr dirents' ->
  (forall p, stat fs' p = stat fs p) ->
  Permutation dirents dirents' ->
  NoDup (map Dirent.name dirents) ->
  (forall d1 d2,
     In d1 dirents -> In d2 dirents ->
     localeCompare (Dirent.name d1) (Dirent.name d2) = 0%Z ->
     Dirent.name d1 = Dirent.name d2) ->
  snd (readDirectory localeCompare fs' requestedPath) = Returns snapshot.
Proof.
  intros H Hdir Hdir' Hstat Hperm Hnodup Hstrict.
  destruct (readDirectory_returns _ _ _ _ H)
    as [resolved [dirents0 [Hres [Hdir0 [Hrej ->]]]]].
  cbn [absolutePath assemble] in Hdir, Hdir'.
  rewrite Hdir0 in Hdir. injection Hdir as ->.
  rewrite readDirectory_unfold, Hres, Hdir'. cbv zeta. cbn [snd].
  destruct (listedEntries_permutation fs resolved _ _ Hperm Hrej)
    as [Hrej' Hlisted].
  destruct (listing_timing_irrelevant fs fs' resolved dirents' Hstat Hrej')
    as [-> Hsame].
  unfold listedEntries in Hsame, Hlisted. rewrite Hsame.
  unfold assemble. do 2 f_equal. symmetry.
  apply (sorted_arrangement_unique (compareEntries localeCompare)).
  - apply sort_sorted;
      [now apply compareEntries_flip | now apply compareEntries_trans].
  - apply sort_sorted;
      [now apply compareEntries_flip | now apply compareEntries_trans].
  - rewrite <- !sort_perm. exact Hlisted.
  - intros a b Ha Hb Hab Hba.
    apply (Permutation_in _ (Permutation_sym (sort_perm _ _))) in Ha, Hb.
    pose proof (fulfilled_entries _ _ _ Hrej) as Hall.
    destruct (Forall2_In_right _ _ _ _ Hall Ha)
      as [d1 [Hd1 [s1 [Hs1 ->]]]].
    destruct (Forall2_In_right _ _ _ _ Hall Hb)
      as [d2 [Hd2 [s2 [Hs2 ->]]]].
    apply (compareEntries_le localeCompare) in Hab, Hba.
    cbn [type name entryOf] in Hab, Hba.
    assert (Hzero : localeCompare (Dirent.name d1) (Dirent.name d2) = 0%Z).
    { pose proof (localeCompare_flip (Dirent.name d1) (Dirent.name d2)).
      destruct Hab as [[Ha1 Ha2]|[Ht Hle]], Hba as [[Hb1 Hb2]|[Ht' Hle']];
        try congruence; lia. }
    pose proof (same_name_same_dirent _ _ _ Hnodup Hd1 Hd2
                  (Hstrict _ _ Hd1 Hd2 Hzero)) as Heq.
    subst d2. rewrite Hs1 in Hs2. now injection Hs2 as ->.
Qed.
End ListingOrder.

Lemma ordinalCompare_strict a b : ordinalCompare a b = 0%Z -> a = b.
Proof.
  unfold ordinalCompare.
  destruct (String.compare a b) eqn:H; try discriminate.
  intros _. now apply String.compare_eq_iff.
Qed.

Lemma reorderedTree_stat p : stat reorderedTree p = stat sampleTree p.
Proof.
  unfold reorderedTree, sampleTree, tableFs. cbn [stat lookup].
  destruct (String.eqb "/dp-apps" p); reflexivity.
Qed.

Lemma listing_order_irrelevant_witness :
  snd (readDirectory ordinalCompare reorderedTree EmptyString)
  = Returns (assemble ordinalCompare EmptyString "/dp-apps"
               (listedEntries sampleTree "/dp-apps" sampleChildren)).
Proof.
  apply (listing_order_irrelevant ordinalCompare
           ordinalCompare_flip ordinalCompare_trans
           sampleTree reorderedTree EmptyString _
           sampleChildren (rev sampleChildren)).
  - reflexivity.
  - reflexivity.
  - reflexivity.
  - exact reorderedTree_stat.
  - apply Permutation_rev.
  - cbn. repeat constructor; cbn; intuition discriminate.
  - intros d1 d2 _ _. apply ordinalCompare_strict.
Defined.

(** ** The explorer, served by the handler *)

Lemma truthy_app_cons a c b : Js.truthy (a ++ String c b) = true.
Proof. destruct a; reflexivity. Qed.

(** The message of an error thrown by [readDirectory] is never empty. *)
Lemma message_truthy e : Js.truthy (message e) = true.
Proof.
  destruct e as [|[s|reason received|]]; try reflexivity.
  unfold message. apply truthy_app_cons.
Qed.

Lemma includes_app a b t :
  Js.includes b t = true -> Js.includes (a ++ b) t = true.
Proof.
  intros H. induction a as [|c a IH]; [exact H|].
  cbn. rewrite IH. apply Bool.orb_true_r.
Qed.

(** The message of a system error has a colon after the code. *)
Lemma read_message_has_colon sys :
  Js.includes (message (ReadError (SystemFailure sys))) ":" = true.
Proof.
  unfold message. apply includes_app. reflexivity.
Qed.

Lemma fetchDirectory_served localeCompare fs s pathToLoad :
  Explorer.fetchDirectory s (serve localeCompare fs pathToLoad)
  = match snd (readDirectory localeCompare fs pathToLoad) with
    | Returns snapshot =>
        {| Explorer.path := Explorer.path s;
           Explorer.data := Some (JsonSnapshot snapshot);
           Explorer.loading := false;
           Explorer.error := None |}
    | Throws e =>
        {| Explorer.path := Explorer.path s;
           Explorer.data := None;
           Explorer.loading := false;
           Explorer.error := Some (message e) |}
    end.
Proof.
  unfold Explorer.fetchDirectory, serve, GET, Explorer.attempt.
  destruct (snd (readDirectory localeCompare fs pathToLoad)) as [snapshot|e].
  - reflexivity.
  - cbn [Explorer.ok status body negb Nat.leb andb Explorer.errorOf
           failureMessage].
    change (Nat.leb 200 400 && Nat.leb 400 299) with false. cbn [negb].
    now rewrite message_truthy.
Qed.

(** X9: a load, end to end. When the handler answers the request of
    [fetchDirectory], the component ends up not loading, on the same
    path, and with either the snapshot [readDirectory] returned and no
    error, or no data and, as its error, the very message of the error
    [readDirectory] threw: neither fallback text of the component is ever
    shown for an answer of the handler. *)
Theorem load_shows_outcome
    (localeCompare : string -> string -> Z) (fs : FileSystem)
    (s : Explorer.State) (pathToLoad : string) :
  let s' := Explorer.fetchDirectory s (serve localeCompare fs pathToLoad) in
  Explorer.loading s' = false
  /\ Explorer.path s' = Explorer.path s
  /\ match snd (readDirectory localeCompare fs pathToLoad) with
     | Returns snapshot =>
         Explorer.data s' = Some (JsonSnapshot snapshot)
         /\ Explorer.error s' = None
     | Throws e =>
         Explorer.data s' = None
         /\ Explorer.error s' = Some (message e)
         /\ message e <> "Unable to load directory contents."
         /\ message e <> "Unexpected error while loading."
     end.
Proof.
  cbv zeta. rewrite fetchDirectory_served.
  destruct (snd (readDirectory localeCompare fs pathToLoad)) as [snapshot|e];
    cbn [Explorer.loading Explorer.path Explorer.data Explorer.error].
  - repeat split.
  - repeat split; intros H;
      destruct e as [|[sys|reason received|]]; try discriminate;
      pose proof (read_message_has_colon sys) as Hin;
      rewrite H in Hin; vm_compute in Hin; discriminate.
Qed.

Lemma parentOf_crumbs_None requestedPath :
  parentOf (buildBreadcrumbs requestedPath) = None
  <-> segmentsOf requestedPath = [].
Proof.
  rewrite parentOf_None, buildBreadcrumbs_length.
  fold (segmentsOf requestedPath).
  destruct (segmentsOf requestedPath); cbn; split;
    try reflexivity; try discriminate; lia.
Qed.

(** X10: the breadcrumb bar after a load. It shows the breadcrumbs of the
    requested path when the load succeeded, and the root crumb alone when
    it failed, which is what the server builds for the empty path; in both
    cases the first crumb is the root crumb, labelled 'dp-apps', with the
    empty path. *)
Theorem load_shows_breadcrumbs
    (localeCompare : string -> string -> Z) (fs : FileSystem)
    (s : Explorer.State) (pathToLoad : string) :
  let s' := Explorer.fetchDirectory s (serve localeCompare fs pathToLoad) in
  Explorer.shownBreadcrumbs s'
    = match snd (readDirectory localeCompare fs pathToLoad) with
      | Returns _ => buildBreadcrumbs pathToLoad
      | Throws _ => buildBreadcrumbs EmptyString
      end
  /\ hd_error (Explorer.shownBreadcrumbs s')
     = Some {| label := "dp-apps"; path := EmptyString |}.
Proof.
  cbv zeta. rewrite fetchDirectory_served.
  destruct (snd (readDirectory localeCompare fs pathToLoad))
    as [snapshot|e] eqn:H.
  - destruct (readDirectory_returns _ _ _ _ H)
      as [resolved [dirents [_ [_ [_ ->]]]]].
    unfold Explorer.shownBreadcrumbs.
    cbn [Explorer.data breadcrumbs assemble].
    split; [reflexivity|].
    now rewrite buildBreadcrumbs_crumbsOfSegments.
  - split; reflexivity.
Qed.

(** X11: the button 'Up one level' after a load. After a successful load
    it is disabled exactly when the requested path has no non-empty
    segment, and a click sets the path to the snapshot's [parentPath] when
    there is one. After a failed load it is enabled, and a click changes
    nothing. *)
Theorem load_sets_up_button
    (localeCompare : string -> string -> Z) (fs : FileSystem)
    (s : Explorer.State) (pathToLoad : string) :
  let s' := Explorer.fetchDirectory s (serve localeCompare fs pathToLoad) in
  match snd (readDirectory localeCompare fs pathToLoad) with
  | Returns snapshot =>
      (Explorer.upDisabled s' = true <-> segmentsOf pathToLoad = [])
      /\ Explorer.path (Explorer.clickUp s')
         = match parentPath snapshot with
           | Some parent => parent
           | None => Explorer.path s
           end
  | Throws _ =>
      Explorer.upDisabled s' = false /\ Explorer.clickUp s' = s'
  end.
Proof.
  cbv zeta. rewrite fetchDirectory_served.
  destruct (snd (readDirectory localeCompare fs pathToLoad))
    as [snapshot|e] eqn:H.
  - destruct (readDirectory_returns _ _ _ _ H)
      as [resolved [dirents [_ [_ [_ ->]]]]].
    unfold Explorer.upDisabled, Explorer.clickUp, Explorer.parentOfData.
    cbn [Explorer.data Explorer.loading Explorer.path parentPath assemble].
    pose proof (parentOf_crumbs_None pathToLoad) as Hnone.
    destruct (parentOf (buildBreadcrumbs pathToLoad)) as [parent|].
    + split; [|reflexivity]. cbn. split; [discriminate|].
      intros Hsegs. apply Hnone in Hsegs. discriminate.
    + split; [|reflexivity]. cbn. split; [intros _; now apply Hnone|auto].
  - split; reflexivity.
Qed.

(** ** When a request succeeds, and what its entries carry *)

Lemma all_fulfilled fs resolved dirents :
  Forall
    (fun d =>
       exists stats, stat fs (Path.join resolved (Dirent.name d)) = inr stats)
    dirents ->
  firstRejection (map (entryTask fs resolved) dirents) = None.
Proof.
  intros H. apply firstRejection_None.
  induction H as [|d ds [stats Hstat] _ IH]; cbn [map]; constructor;
    [|exact IH].
  rewrite entryTask_outcome, Hstat. eauto.
Qed.

(** A child whose modification time is out of range fails the request,
    although its [fs.stat] fulfils. *)
Lemma undated_child_fails :
  readDirectory ordinalCompare undatedTree EmptyString
    = ([CallReaddir "/dp-apps"; CallStat "/dp-apps/old"],
       Throws (ReadError InvalidTime))
  /\ GET ordinalCompare undatedTree None
     = {| status := 400; body := JsonError "Invalid time value" |}.
Proof. split; reflexivity. Qed.

(** X12: when a request succeeds. [readDirectory] returns a snapshot if
    and only if the path passes the resolver, the resolved directory can be
    listed, and the metadata of every listed child can be read: [fs.stat]
    fulfils and the modification time is a date that [toISOString] can
    write, which is what [stat] returning stats stands for. The snapshot
    then carries the base directory, the raw request and the path the
    resolver returned. *)
Theorem readDirectory_succeeds_iff
    (localeCompare : string -> string -> Z) (fs : FileSystem)
    (request : string) :
  ((exists snapshot,
      snd (readDirectory localeCompare fs request) = Returns snapshot)
   <-> (exists resolved dirents,
          resolvePath request = Returns resolved
          /\ readdir fs resolved = inr dirents
          /\ Forall
               (fun d =>
                  exists stats,
                    stat fs (Path.join resolved (Dirent.name d)) = inr stats)
               dirents))
  /\ (forall snapshot,
        snd (readDirectory localeCompare fs request) = Returns snapshot ->
        basePath snapshot = BASE_DIRECTORY
        /\ requestedPath snapshot = request
        /\ resolvePath request = Returns (absolutePath snapshot)).
Proof.
  split; [split|].
  - intros [snapshot H].
    destruct (readDirectory_returns _ _ _ _ H)
      as [resolved [dirents [Hres [Hdir [Hrej _]]]]].
    exists resolved, dirents. split; [exact Hres|]. split; [exact Hdir|].
    pose proof (fulfilled_entries _ _ _ Hrej) as Hall. clear -Hall.
    induction Hall as [|d e ds es [stats [Hok _]] _ IH]; [constructor|].
    constructor; [now exists stats | exact IH].
  - intros [resolved [dirents [Hres [Hdir Hall]]]].
    rewrite readDirectory_unfold, Hres, Hdir. cbv zeta. cbn [snd].
    rewrite (all_fulfilled _ _ _ Hall). eauto.
  - intros snapshot H.
    destruct (readDirectory_returns _ _ _ _ H)
      as [resolved [dirents [Hres [_ [_ ->]]]]].
    repeat split. exact Hres.
Qed.

(** X13: what an entry carries. Every entry of a snapshot has the size
    and the modification time that [stat] reports for the path of the
    child, the snapshot's [absolutePath] joined with the entry's name. *)
Theorem entry_metadata
    (localeCompare : string -> string -> Z) (fs : FileSystem)
    (request : string) (snapshot : DirectorySnapshot)
    (entry : DirectoryEntry) :
  snd (readDirectory localeCompare fs request) = Returns snapshot ->
  In entry (entries snapshot) ->
  exists stats,
    stat fs (Path.join (absolutePath snapshot) (name entry)) = inr stats
    /\ size entry = Stats.size stats
    /\ modified entry = Stats.mtimeISO stats.
Proof.
  intros H Hin.
  destruct (readDirectory_returns _ _ _ _ H)
    as [resolved [dirents [_ [_ [Hrej ->]]]]].
  cbn [absolutePath entries assemble] in *.
  apply (Permutation_in _ (Permutation_sym (sort_perm _ _))) in Hin.
  destruct (Forall2_In_right _ _ _ _ (fulfilled_entries _ _ _ Hrej) Hin)
    as [dirent [_ [stats [Hstat ->]]]].
  exists stats. repeat split. exact Hstat.
Qed.

Lemma entry_metadata_witness :
  exists stats,
    stat sampleTree (Path.join "/dp-apps" "a.txt") = inr stats
    /\ 7%N = Stats.size stats
    /\ epoch = Stats.mtimeISO stats.
Proof.
  apply (entry_metadata ordinalCompare sampleTree EmptyString
           (assemble ordinalCompare EmptyString "/dp-apps"
              (listedEntries sampleTree "/dp-apps" sampleChildren))
           {| name := "a.txt"; relativePath := "a.txt"; type := file;
              size := 7; modified := epoch |}).
  - reflexivity.
  - vm_compute. right. right. left. reflexivity.
Defined.

(** ** Which accepted paths lie within the base directory *)

(** X14: a path the resolver returns lies within the base directory
    exactly when the first segment of the normalised request is 'dp-apps'
    itself, not merely a segment that begins with it. *)
Theorem accepted_within_base_iff (request resolved : string) :
  resolvePath request = Returns resolved ->
  (withinBase resolved = true
   <-> exists below,
         Path.normalizeSegments false ("dp-apps" :: segmentsOf request)
         = "dp-apps" :: below).
Proof.
  intros Hres. rewrite resolvePath_by_segments in Hres.
  pose proof (resolved_request_plain request) as Hplain.
  destruct (Path.normalizeSegments false _) as [|first rest];
    [discriminate|].
  destruct (String.prefix "dp-apps" first); [|discriminate].
  assert (Hresolved : resolved = "/" ++ Js.join (first :: rest))
    by congruence.
  subst resolved. split.
  - intros Hwithin. now apply withinBase_first_segment.
  - intros [below Hbelow]. rewrite Hbelow, join_base.
    apply withinBase_join_base.
Qed.

Lemma accepted_within_base_iff_witness :
  withinBase "/dp-apps-evil" = true
  <-> exists below,
        Path.normalizeSegments false
          ("dp-apps" :: segmentsOf "../dp-apps-evil")
        = "dp-apps" :: below.
Proof.
  exact (accepted_within_base_iff "../dp-apps-evil" "/dp-apps-evil" eq_refl).
Defined.
